(** * keyboard_sound: the capture / extraction core of [main.py]

    A shallow embedding of [ResearchApp]: the rolling audio buffer kept by
    the stream callback, the key filter of the keyboard listener, and
    [save_key_audio], which cuts the trailing segment, normalises it and
    persists one clip and one metadata row.

    Samples are IEEE-754 binary32 values ([np.float32]), modelled with the
    operations of [SpecFloat] at precision 24 and maximal exponent 128.
    Strings are Python [str] values restricted to code points below 256.
    The file system is a finite map from paths to clip contents. *)

From stdpp Require Import gmap strings list fin_maps pretty.
From Stdlib Require Import ZArith Ascii Floats.SpecFloat.

Local Open Scope Z_scope.

(** ** NumPy array operations used by the program *)

Module Numpy.
Section Arrays.
Context {A : Type}.

(** [a[-n:]]: Python clamps the start index, and [-0] is [0]. *)
Definition tail_start (len n : nat) : nat :=
  if Nat.eqb n 0 then 0%nat else (len - n)%nat.

(** [np.roll(a, shift)] on a one-dimensional array: element [i] moves to
    index [(i + shift) mod len(a)]; a fresh array is returned. *)
Definition roll (a : list A) (shift : Z) : list A :=
  match a with
  | [] => []
  | _ =>
      let k := Z.to_nat ((- shift) mod Z.of_nat (length a)) in
      drop k a ++ take k a
  end.

(** [a[-n:]] as a value. *)
Definition getitem_tail (a : list A) (n : nat) : list A :=
  drop (tail_start (length a) n) a.

(** [a[-n:] = v]: the right-hand side must have the length of the slice,
    or length one (broadcast); anything else is a [ValueError]. *)
Definition setitem_tail (a : list A) (n : nat) (v : list A) : option (list A) :=
  let start := tail_start (length a) n in
  let width := (length a - start)%nat in
  if Nat.eqb (length v) width then Some (take start a ++ v)
  else match v with
       | [x] => Some (take start a ++ replicate width x)
       | _ => None
       end.

End Arrays.
End Numpy.

(** ** IEEE-754 arithmetic

    [np.float32] is binary32 and Python's [float] is binary64; both are
    instances of the parametric operations of [SpecFloat]. *)

Module IEEE.

(** Value of a finite float truncated toward zero (a C cast to an integer
    type wide enough to hold it). *)
Definition trunc (x : spec_float) : option Z :=
  match x with
  | S754_zero _ => Some 0
  | S754_finite s m e =>
      Some (cond_Zopp s (if 0 <=? e then Z.shiftl (Zpos m) e
                         else Zpos m / 2 ^ (- e)))
  | S754_infinity _ | S754_nan => None
  end.

Definition is_finite (x : spec_float) : bool :=
  match x with
  | S754_zero _ | S754_finite _ _ _ => true
  | S754_infinity _ | S754_nan => false
  end.

End IEEE.

Module F32.

Definition prec : Z := 24.
Definition emax : Z := 128.

Notation float32 := spec_float (only parsing).

Definition zero : float32 := S754_zero false.
Definition of_Z (n : Z) : float32 := binary_normalize prec emax n 0 false.
Definition div : float32 -> float32 -> float32 := SFdiv prec emax.
Definition mul : float32 -> float32 -> float32 := SFmul prec emax.
Definition abs : float32 -> float32 := SFabs.
Definition ltb : float32 -> float32 -> bool := SFltb.
Definition valid (x : float32) : bool := valid_binary prec emax x.

(** A sample as an audio device delivers it: a well-formed binary32 value
    that is neither an infinity nor a NaN. *)
Definition finite (x : float32) : bool := IEEE.is_finite x && valid x.

(** [np.maximum]: a NaN operand wins. *)
Definition maximum (x y : float32) : float32 :=
  match x, y with
  | S754_nan, _ | _, S754_nan => S754_nan
  | _, _ => if ltb x y then y else x
  end.

(** [np.max(a)]: [None] is the [ValueError] NumPy raises on an empty
    array. *)
Definition max (a : list float32) : option float32 :=
  match a with
  | [] => None
  | x :: rest => Some (fold_left maximum rest x)
  end.

(** Two's-complement wrap-around to 16 bits. *)
Definition wrap16 (z : Z) : Z := (z + 32768) mod 65536 - 32768.

(** The cast of one [float32] to a 32-bit integer as the x86-64 conversion
    instruction performs it: truncation toward zero, and the "integer
    indefinite" value [-2^31] for a NaN, an infinity or a value out of
    range (C leaves those conversions undefined). *)
Definition to_int32 (x : float32) : Z :=
  match IEEE.trunc x with
  | Some t => if (- 2 ^ 31 <=? t) && (t <? 2 ^ 31) then t else - 2 ^ 31
  | None => - 2 ^ 31
  end.

(** [np.int16(x)] for a [float32] element: the conversion above narrowed
    to 16 bits. *)
Definition to_int16 (x : float32) : Z := wrap16 (to_int32 x).

End F32.

Module F64.

Definition prec : Z := 53.
Definition emax : Z := 1024.
Definition of_Z (n : Z) : spec_float := binary_normalize prec emax n 0 false.
Definition mul : spec_float -> spec_float -> spec_float := SFmul prec emax.

(** Python's [int(x)] for a float [x]; infinities and NaN raise, which the
    constants of this program never do. *)
Definition int (x : spec_float) : nat :=
  match IEEE.trunc x with
  | Some t => Z.to_nat t
  | None => 0%nat
  end.

(** The literals [2.0] and [0.2] as binary64 values. *)
Definition lit_2_0 : spec_float := S754_finite false 4503599627370496 (-51).
Definition lit_0_2 : spec_float := S754_finite false 7205759403792794 (-55).

End F64.

(** ** Python strings *)

Module Str.

(** [str.isprintable] on one code point below 256: the printable ASCII
    range, and the Latin-1 letters and signs except the no-break space
    (U+00A0, a separator) and the soft hyphen (U+00AD, a format
    character). *)
Definition isprintable_char (c : ascii) : bool :=
  let n := N_of_ascii c in
  ((32 <=? n) && (n <=? 126) || (161 <=? n) && negb (n =? 173))%N.

(** [s.isprintable()]: every character is printable (true of the empty
    string). *)
Fixpoint isprintable (s : string) : bool :=
  match s with
  | EmptyString => true
  | String c rest => isprintable_char c && isprintable rest
  end.

(** [len(s)]. *)
Definition len (s : string) : nat := String.length s.

(** [s.startswith(p)]. *)
Definition startswith (p s : string) : bool := String.prefix p s.

(** [s.endswith(c)] for a single character [c]. *)
Fixpoint endswith_char (c : ascii) (s : string) : bool :=
  match s with
  | EmptyString => false
  | String x EmptyString => Ascii.eqb x c
  | String _ rest => endswith_char c rest
  end.

Definition digit (d : N) : ascii := ascii_of_N (48 + d mod 10).

(** ["%0<width>d" % n] for [n] below [10 ^ width]: the decimal digits of
    [n], zero-padded on the left to [width] characters. *)
Fixpoint zfill (width : nat) (n : N) : string :=
  match width with
  | O => EmptyString
  | S w => zfill w (n / 10) +:+ String (digit n) EmptyString
  end.

(** ["%d" % n]. *)
Definition decimal (n : N) : string := pretty n.

(** [c in s] for a single character [c]. *)
Fixpoint contains_char (c : ascii) (s : string) : bool :=
  match s with
  | EmptyString => false
  | String x rest => Ascii.eqb x c || contains_char c rest
  end.

End Str.

(** ** [datetime] and the timestamp format *)

Record datetime := mkDatetime {
  year : N; month : N; day : N;
  hour : N; minute : N; second : N; microsecond : N
}.

(** The field ranges every [datetime] object satisfies. *)
Definition datetime_ok (d : datetime) : Prop :=
  (1 <= year d <= 9999 /\ 1 <= month d <= 12 /\ 1 <= day d <= 31 /\
   hour d <= 23 /\ minute d <= 59 /\ second d <= 59 /\
   microsecond d <= 999999)%N.

(** [d.strftime("%Y%m%d_%H%M%S_%f")]. *)
Definition strftime (d : datetime) : string :=
  Str.zfill 4 (year d) +:+ Str.zfill 2 (month d) +:+ Str.zfill 2 (day d)
  +:+ "_" +:+ Str.zfill 2 (hour d) +:+ Str.zfill 2 (minute d)
  +:+ Str.zfill 2 (second d) +:+ "_" +:+ Str.zfill 6 (microsecond d).

(** ** [os.path.join] (POSIX) for two components *)

Definition os_path_join (a b : string) : string :=
  if Str.startswith "/" b then b
  else if String.eqb a EmptyString || Str.endswith_char "/" a
       then a +:+ b
       else a +:+ "/" +:+ b.

(** ** Keys reported by [pynput]

    A key is a [KeyCode] (a key with a virtual key code and, when the
    layout gives one, the character it types) or a member of the [Key]
    enumeration (space, enter, shift, f1, ...), identified by its name. *)

Inductive pynput_key :=
  | KeyCode (vk : N) (char : option ascii) (is_dead : bool)
  | Key (name : string).

(** [str(key)]. A [Key] member prints as [Key.<name>]. A [KeyCode] prints
    by its [__repr__]: [<vk>] without a character, else the [repr] of the
    character, in brackets for a dead key. [repr] is modelled by single
    quotes without escapes; [on_press] reaches it only for [None]. *)
Definition str_key (k : pynput_key) : string :=
  match k with
  | Key name => "Key." +:+ name
  | KeyCode vk char is_dead =>
      let r := match char with
               | None => "None"
               | Some c => String "'" (String c "'")
               end in
      if is_dead then "[" +:+ r +:+ "]"
      else match char with
           | Some _ => r
           | None => "<" +:+ Str.decimal vk +:+ ">"
           end
  end.

(** [key.char if hasattr(key, 'char') and key.char else str(key)]: only a
    [KeyCode] has the attribute, [None] is falsy and a character is
    truthy. *)
Definition key_text (k : pynput_key) : string :=
  match k with
  | KeyCode _ (Some c) _ => String c EmptyString
  | _ => str_key k
  end.

(** The condition of [on_press]:
    [(k.isprintable() and len(k) == 1) or k in ['Key.space', 'Key.enter',
    'Key.backspace']]. *)
Definition recorded_label (k : string) : bool :=
  (Str.isprintable k && Nat.eqb (Str.len k) 1)
  || bool_decide (k ∈ ["Key.space"; "Key.enter"; "Key.backspace"]).

(** ** The application object *)

Record ResearchApp := mkApp {
  is_recording : bool;
  fs : Z;
  buffer_samples : nat;
  segment_samples : nat;
  audio_buffer : list F32.float32;
  input_device : option nat;
  output_dir : string;
  status_label : string;
  (** the input stream opened by [record_audio] is delivering blocks *)
  stream_open : bool;
  (** the keyboard listener of [listen_keyboard] is running *)
  listener_running : bool
}.

Definition set_is_recording (st : ResearchApp) (b : bool) : ResearchApp :=
  mkApp b (fs st) (buffer_samples st) (segment_samples st) (audio_buffer st)
        (input_device st) (output_dir st) (status_label st) (stream_open st)
        (listener_running st).

Definition set_audio_buffer (st : ResearchApp) (a : list F32.float32) : ResearchApp :=
  mkApp (is_recording st) (fs st) (buffer_samples st) (segment_samples st) a
        (input_device st) (output_dir st) (status_label st) (stream_open st)
        (listener_running st).

Definition set_status (st : ResearchApp) (text : string) : ResearchApp :=
  mkApp (is_recording st) (fs st) (buffer_samples st) (segment_samples st)
        (audio_buffer st) (input_device st) (output_dir st) text
        (stream_open st) (listener_running st).

Definition set_stream_open (st : ResearchApp) (b : bool) : ResearchApp :=
  mkApp (is_recording st) (fs st) (buffer_samples st) (segment_samples st)
        (audio_buffer st) (input_device st) (output_dir st) (status_label st)
        b (listener_running st).

Definition set_listener_running (st : ResearchApp) (b : bool) : ResearchApp :=
  mkApp (is_recording st) (fs st) (buffer_samples st) (segment_samples st)
        (audio_buffer st) (input_device st) (output_dir st) (status_label st)
        (stream_open st) b.

(** The first device with input channels, as [__init__] selects it from
    [sd.query_devices()]; [devices] lists [max_input_channels] per device,
    and [None] stands for a query that raised. *)
Fixpoint first_input (devices : list Z) (i : nat) : option nat :=
  match devices with
  | [] => None
  | channels :: rest =>
      if 0 <? channels then Some i else first_input rest (S i)
  end.

Definition select_input_device (query : option (list Z)) : option nat :=
  match query with
  | Some devices => first_input devices 0
  | None => None
  end.

(** [ResearchApp.__init__], the part the capture core reads. *)
Definition init (query : option (list Z)) : ResearchApp :=
  let fs := 44100 in
  let buffer_samples := F64.int (F64.mul (F64.of_Z fs) F64.lit_2_0) in
  let segment_samples := F64.int (F64.mul (F64.of_Z fs) F64.lit_0_2) in
  {| is_recording := false;
     fs := fs;
     buffer_samples := buffer_samples;
     segment_samples := segment_samples;
     audio_buffer := replicate buffer_samples F32.zero;
     input_device := select_input_device query;
     output_dir := "recordings";
     status_label := "Status: Idle";
     stream_open := false;
     listener_running := false |}.

(** How a call ends. *)
Inductive outcome :=
  | Returned
  | Raised (exc : string).

(** The stream callback of [record_audio]. [indata] is the mono column
    [indata[:, 0]] and [frames] its length. The roll rebinds
    [self.audio_buffer] before the slice assignment, so an assignment that
    raises leaves the rolled array behind. *)
Definition callback (st : ResearchApp) (indata : list F32.float32)
  : ResearchApp * outcome :=
  if negb (is_recording st) then (st, Returned)
  else
    let frames := length indata in
    let rolled := Numpy.roll (audio_buffer st) (- Z.of_nat frames) in
    match Numpy.setitem_tail rolled frames indata with
    | Some a => (set_audio_buffer st a, Returned)
    | None =>
        (set_audio_buffer st rolled,
         Raised "ValueError: could not broadcast input array")
    end.

(** A run of callbacks, one per delivered block, up to the first one that
    raises. *)
Fixpoint appends (st : ResearchApp) (blocks : list (list F32.float32))
  : ResearchApp * outcome :=
  match blocks with
  | [] => (st, Returned)
  | indata :: rest =>
      match callback st indata with
      | (st', Returned) => appends st' rest
      | (st', Raised e) => (st', Raised e)
      end
  end.

(** The application after the host has called the callback on each block
    in turn, whatever the outcome of each call. *)
Definition feed (st : ResearchApp) (blocks : list (list F32.float32))
  : ResearchApp :=
  fold_left (fun s indata => fst (callback s indata)) blocks st.

(** [self.audio_buffer[-n:]], the read [save_key_audio] makes under the
    lock. The slice is a view of an array no later callback writes to:
    each callback first rebinds [self.audio_buffer] to the fresh array
    [np.roll] returns. *)
Definition snapshot_last (st : ResearchApp) (n : nat) : list F32.float32 :=
  Numpy.getitem_tail (audio_buffer st) n.

(** ** Clips and the metadata log *)

(** A WAV file: the parameters set on the writer and the 16-bit frames. *)
Record wav := mkWav {
  nchannels : Z;
  sampwidth : Z;
  framerate : Z;
  wav_frames : list Z
}.

(** One row of [metadata.csv]. *)
Record MetadataRecord := mkRow {
  timestamp : string;
  key : string;
  wav_file : string
}.

(** The part of the file system the program writes: WAV files by path and
    the data rows of the metadata log, oldest first. *)
Record Disk := mkDisk {
  wav_files : gmap string wav;
  metadata : list MetadataRecord
}.

(** What the file system answers to one [save_key_audio]. A failed
    [writeframes] leaves the file [wave.open] created, holding the frames
    written so far; the metadata log is appended after the clip is closed,
    and a failed append leaves the log as it was. *)
Inductive io_outcome :=
  | IoOk
  | WaveOpenError (e : string)
  | WaveWriteError (e : string) (written : nat)
  | CsvOpenError (e : string)
  | CsvWriteError (e : string).

(** Lines 219-222 of [save_key_audio]: peak normalisation and the
    conversion to [int16]. [None] is the [ValueError] of [np.max] on an
    empty segment. *)
Definition normalize (segment : list F32.float32) : option (list Z) :=
  match F32.max (map F32.abs segment) with
  | None => None
  | Some peak =>
      if F32.ltb F32.zero peak
      then Some (map (fun x => F32.to_int16
                                 (F32.mul (F32.div x peak) (F32.of_Z 32767)))
                     segment)
      else Some (map F32.to_int16 segment)
  end.

Definition wav_filename (key_label : string) (now : datetime) : string :=
  key_label +:+ "_" +:+ strftime now +:+ ".wav".

Definition wav_path (st : ResearchApp) (key_label : string) (now : datetime)
  : string :=
  os_path_join (output_dir st) (wav_filename key_label now).

(** The [except] branch: the message is scheduled for the status label. *)
Definition save_error (st : ResearchApp) (e : string) : ResearchApp :=
  set_status st ("Save error: " +:+ e).

(** [save_key_audio(key_label)], called at time [now], with the file
    system answering [io]. *)
Definition save_key_audio (st : ResearchApp) (d : Disk) (key_label : string)
    (now : datetime) (io : io_outcome) : ResearchApp * Disk :=
  let path := wav_path st key_label now in
  let segment := snapshot_last st (segment_samples st) in
  match normalize segment with
  | None =>
      (save_error st "zero-size array to reduction operation maximum which has no identity", d)
  | Some segment_int16 =>
      let clip frames := mkWav 1 2 (fs st) frames in
      match io with
      | WaveOpenError e => (save_error st e, d)
      | WaveWriteError e written =>
          (save_error st e,
           mkDisk (<[path := clip (take written segment_int16)]> (wav_files d))
                  (metadata d))
      | CsvOpenError e | CsvWriteError e =>
          (save_error st e,
           mkDisk (<[path := clip segment_int16]> (wav_files d)) (metadata d))
      | IoOk =>
          (st,
           mkDisk (<[path := clip segment_int16]> (wav_files d))
                  (metadata d ++
                   [mkRow (strftime now) key_label (wav_filename key_label now)]))
      end
  end.

(** [on_press(key)] of [listen_keyboard]. The third component lists the
    labels handed to [save_key_audio]: the key events this press
    produced. *)
Definition on_press (st : ResearchApp) (d : Disk) (k : pynput_key)
    (now : datetime) (io : io_outcome) : ResearchApp * Disk * list string :=
  if negb (is_recording st) then (st, d, [])
  else
    let label := key_text k in
    if recorded_label label
    then (save_key_audio st d label now io, [label])
    else (st, d, []).

(** ** The session *)

(** [record_audio] up to the point where the stream is delivering:
    [stream_error] is the exception, if any, that opening the stream
    raises. *)
Definition record_audio (st : ResearchApp) (stream_error : option string)
  : ResearchApp :=
  match input_device st with
  | None => set_status st "Audio error: No valid input device found"
  | Some _ =>
      match stream_error with
      | Some e => set_status st ("Audio error: " +:+ e)
      | None => set_stream_open st true
      end
  end.

(** [listen_keyboard] up to the point where the listener is running. *)
Definition listen_keyboard (st : ResearchApp) (hook_error : option string)
  : ResearchApp :=
  match hook_error with
  | Some e => set_status st ("Keyboard error: " +:+ e)
  | None => set_listener_running st true
  end.

(** [start_recording]: [duration] is the parsed entry, [None] when it is
    not an integer. The two threads are started in the order of the
    source. *)
Definition start_recording (st : ResearchApp) (duration : option Z)
    (stream_error hook_error : option string) : ResearchApp :=
  match duration with
  | Some n =>
      if n <=? 0 then st
      else
        let st1 := set_status (set_is_recording st true) "Status: Recording..." in
        listen_keyboard (record_audio st1 stream_error) hook_error
  | None => st
  end.

(** [stop_recording]: the flag ends the loop of [record_audio], which
    closes the stream, and the listener is stopped. *)
Definition stop_recording (st : ResearchApp) : ResearchApp :=
  set_listener_running
    (set_stream_open
       (set_status (set_is_recording st false) "Status: Idle") false)
    false.

(** What happens to a running application, one event at a time: a click
    on start (the button is disabled while recording) or on stop, a block
    from the open stream, a key press seen by the running listener. The
    lock makes a callback and the read of [save_key_audio] atomic with
    respect to each other, so the two threads interleave as a sequence. *)
Inductive event :=
  | EvStart (duration : option Z) (stream_error hook_error : option string)
  | EvStop
  | EvAudio (indata : list F32.float32)
  | EvKey (k : pynput_key) (now : datetime) (io : io_outcome).

Definition step (w : ResearchApp * Disk) (ev : event) : ResearchApp * Disk :=
  let (st, d) := w in
  match ev with
  | EvStart duration stream_error hook_error =>
      if is_recording st then w
      else (start_recording st duration stream_error hook_error, d)
  | EvStop => (stop_recording st, d)
  | EvAudio indata =>
      if stream_open st then (fst (callback st indata), d) else w
  | EvKey k now io =>
      if listener_running st then fst (on_press st d k now io) else w
  end.

Definition run (w : ResearchApp * Disk) (evs : list event) : ResearchApp * Disk :=
  fold_left step evs w.

(** ** The countdown

    The fields of the application object that drive the countdown, with
    the number of calls of [countdown_timer] that [root.after] has
    scheduled and the event loop has not yet run. *)

Module Timer.

Record Countdown := mkCountdown {
  recording_duration : Z;
  remaining_time : Z;
  timer_running : bool;
  timer_label : string;
  scheduled : nat
}.

Definition set_remaining_time (c : Countdown) (n : Z) : Countdown :=
  mkCountdown (recording_duration c) n (timer_running c) (timer_label c)
              (scheduled c).

Definition set_timer_running (c : Countdown) (b : bool) : Countdown :=
  mkCountdown (recording_duration c) (remaining_time c) b (timer_label c)
              (scheduled c).

Definition set_timer_label (c : Countdown) (text : string) : Countdown :=
  mkCountdown (recording_duration c) (remaining_time c) (timer_running c) text
              (scheduled c).

Definition set_scheduled (c : Countdown) (n : nat) : Countdown :=
  mkCountdown (recording_duration c) (remaining_time c) (timer_running c)
              (timer_label c) n.

(** [root.after(1000, self.countdown_timer)]. *)
Definition after (c : Countdown) : Countdown :=
  set_scheduled c (S (scheduled c)).

(** The countdown fields as [__init__] sets them. *)
Definition init : Countdown := mkCountdown 60 0 false EmptyString 0.

Definition update_timer_label (c : Countdown) : Countdown :=
  if 0 <? remaining_time c
  then set_timer_label c ("Time left: " +:+ pretty (remaining_time c) +:+ " s")
  else set_timer_label c EmptyString.

(** [start_recording] with the countdown: the duration is stored, the
    label is drawn and the first tick is scheduled before the threads are
    started. *)
Definition start_recording (w : ResearchApp * Countdown) (duration : option Z)
    (stream_error hook_error : option string) : ResearchApp * Countdown :=
  match duration with
  | Some n =>
      if n <=? 0 then w
      else
        let c1 := mkCountdown n n (timer_running w.2) (timer_label w.2)
                              (scheduled w.2) in
        let c2 := after (set_timer_running (update_timer_label c1) true) in
        (start_recording w.1 duration stream_error hook_error, c2)
  | None => w
  end.

Definition stop_recording (w : ResearchApp * Countdown)
  : ResearchApp * Countdown :=
  (stop_recording w.1,
   set_timer_label (set_timer_running w.2 false) EmptyString).

Definition countdown_timer (w : ResearchApp * Countdown)
  : ResearchApp * Countdown :=
  if negb (is_recording w.1) || negb (timer_running w.2) then w
  else if 0 <? remaining_time w.2
  then (w.1, after (update_timer_label
                      (set_remaining_time w.2 (remaining_time w.2 - 1))))
  else stop_recording w.

(** What happens to the application with its countdown: the event loop
    runs one scheduled call of [countdown_timer], or one of the events of
    [step] happens. *)
Inductive timed_event :=
  | Tick
  | App (ev : event).

Definition timed_step (w : ResearchApp * Countdown * Disk) (ev : timed_event)
  : ResearchApp * Countdown * Disk :=
  let '(st, c, d) := w in
  match ev with
  | Tick =>
      match scheduled c with
      | O => w
      | S pending => (countdown_timer (st, set_scheduled c pending), d)
      end
  | App (EvStart duration stream_error hook_error) =>
      if is_recording st then w
      else (start_recording (st, c) duration stream_error hook_error, d)
  | App EvStop => (stop_recording (st, c), d)
  | App ev => let (st', d') := step (st, d) ev in (st', c, d')
  end.

Definition timed_run (w : ResearchApp * Countdown * Disk)
    (evs : list timed_event) : ResearchApp * Countdown * Disk :=
  fold_left timed_step evs w.

End Timer.

(** ** Work done by the callback

    The same callback with the array traffic counted: elements of freshly
    allocated arrays and element stores. *)

Module Cost.

Record work := mkWork {
  allocated : nat;
  stored : nat
}.

Definition costed (A : Type) : Type := A * work.

Definition ret {A} (x : A) : costed A := (x, mkWork 0 0).

Definition bind {A B} (m : costed A) (f : A -> costed B) : costed B :=
  let (x, w1) := m in
  let (y, w2) := f x in
  (y, mkWork (allocated w1 + allocated w2) (stored w1 + stored w2)).

Notation "'let*' x ':=' m 'in' k" := (bind m (fun x => k))
  (at level 10, x name, k at level 200).

(** [np.roll] returns a new array of the length of its argument and fills
    every element of it. *)
Definition roll {A} (a : list A) (shift : Z) : costed (list A) :=
  (Numpy.roll a shift, mkWork (length a) (length a)).

(** A slice assignment stores one element per position of the slice, and
    nothing when it raises. *)
Definition setitem_tail {A} (a : list A) (n : nat) (v : list A)
  : costed (option (list A)) :=
  match Numpy.setitem_tail a n v with
  | Some a' =>
      (Some a', mkWork 0 (length a - Numpy.tail_start (length a) n))
  | None => (None, mkWork 0 0)
  end.

Definition callback (st : ResearchApp) (indata : list F32.float32)
  : costed (ResearchApp * outcome) :=
  if negb (is_recording st) then ret (st, Returned)
  else
    let frames := length indata in
    let* rolled := roll (audio_buffer st) (- Z.of_nat frames) in
    let* assigned := setitem_tail rolled frames indata in
    match assigned with
    | Some a => ret (set_audio_buffer st a, Returned)
    | None =>
        ret (set_audio_buffer st rolled,
             Raised "ValueError: could not broadcast input array")
    end.

End Cost.

(** ** Vocabulary of the statements *)

(** The last [n] elements of [l], oldest first (all of [l] when it is
    shorter). *)
Definition last_n {A} (n : nat) (l : list A) : list A :=
  drop (length l - n) l.

(** A block as the audio host delivers it to a buffer of [capacity]
    samples: at least one frame, and no more than the buffer holds. *)
Definition block_fits {A} (capacity : nat) (block : list A) : Prop :=
  (0 < length block ≤ capacity)%nat.

(** The key types exactly one printable character. *)
Definition single_printable (k : pynput_key) : Prop :=
  ∃ vk c is_dead, k = KeyCode vk (Some c) is_dead
                  ∧ Str.isprintable_char c = true.

(** The key is the space bar, enter or backspace. *)
Definition named_control (k : pynput_key) : Prop :=
  k = Key "space" ∨ k = Key "enter" ∨ k = Key "backspace".

(** What a session without a device keeps true: no stream is delivering,
    and the buffer and the constants are those of [st0]. *)
Definition deviceless (st0 st : ResearchApp) : Prop :=
  input_device st = None ∧ stream_open st = false ∧
  audio_buffer st = audio_buffer st0 ∧
  segment_samples st = segment_samples st0 ∧
  fs st = fs st0 ∧ output_dir st = output_dir st0.

(** The row [save_key_audio] logs for a label and an instant. *)
Definition row_of (stamp : string * datetime) : MetadataRecord :=
  mkRow (strftime stamp.2) stamp.1 (wav_filename stamp.1 stamp.2).

(** The label and the instant of every key press among the events. *)
Fixpoint key_stamps (evs : list event) : list (string * datetime) :=
  match evs with
  | [] => []
  | EvKey k now _ :: rest => (key_text k, now) :: key_stamps rest
  | _ :: rest => key_stamps rest
  end.

(** Every metadata row names a clip file that exists under the output
    directory. *)
Definition rows_have_files (w : ResearchApp * Disk) : Prop :=
  ∀ row, row ∈ metadata w.2 ->
         is_Some (wav_files w.2 !! os_path_join (output_dir w.1) (wav_file row)).

(** No two metadata rows name the same clip file. *)
Definition names_unique (d : Disk) : Prop :=
  NoDup (wav_file <$> metadata d).

(** The magnitude of a finite binary32 value in units of [2 ^ -149], the
    smallest positive one. *)
Definition magnitude (x : F32.float32) : Z :=
  match x with
  | S754_finite _ m e => Zpos m * 2 ^ (e + 149)
  | _ => 0
  end.

(** A finite value that is zero or positive, as [np.abs] returns it. *)
Definition nonneg_finite (x : F32.float32) : Prop :=
  x = S754_zero false ∨
  ∃ m e, x = S754_finite false m e ∧ bounded F32.prec F32.emax m e = true.

(** What a finite value of magnitude at most one looks like. *)
Definition at_most_one (s : bool) (q : F32.float32) : Prop :=
  q = S754_zero s ∨
  ∃ m e, q = S754_finite s m e ∧ e <= 0 ∧ Zpos m <= 2 ^ (- e).

(** The sample is [+0.0] or [-0.0]. *)
Definition is_zero (x : F32.float32) : Prop :=
  match x with
  | S754_zero _ => True
  | _ => False
  end.

(** The largest absolute value in a clip (zero for an empty one). *)
Definition max_abs (ints : list Z) : Z :=
  foldr (fun z acc => Z.max (Z.abs z) acc) 0 ints.

(** The event is a block from the audio stream. *)
Definition is_audio (ev : event) : Prop :=
  match ev with
  | EvAudio _ => True
  | _ => False
  end.

(** The event is a block or a key press: something the platform delivers,
    as opposed to a click on start or stop. *)
Definition is_input (ev : event) : Prop :=
  match ev with
  | EvAudio _ | EvKey _ _ _ => True
  | _ => False
  end.

(** [a] rotated left by [k] places. *)
Definition rotate_left {A} (k : nat) (a : list A) : list A :=
  drop k a ++ take k a.

(** Lexicographic combination of two comparisons. *)
Definition lex (c1 c2 : comparison) : comparison :=
  match c1 with
  | Eq => c2
  | _ => c1
  end.

(** The order of [datetime] objects: field by field, most significant
    first. *)
Definition datetime_compare (d1 d2 : datetime) : comparison :=
  lex (year d1 ?= year d2)%N
 (lex (month d1 ?= month d2)%N
 (lex (day d1 ?= day d2)%N
 (lex (hour d1 ?= hour d2)%N
 (lex (minute d1 ?= minute d2)%N
 (lex (second d1 ?= second d2)%N
      (microsecond d1 ?= microsecond d2)%N))))).

(** The key press is one whose save the file system lets through. *)
Definition saved (ev : event) : Prop :=
  match ev with
  | EvKey _ _ io => io = IoOk
  | _ => True
  end.

(** A sample that is not a number or is infinite. *)
Definition nonfinite (x : F32.float32) : Prop :=
  match x with
  | S754_nan | S754_infinity _ => True
  | _ => False
  end.

(** The number of ticks among the events. *)
Fixpoint ticks (evs : list Timer.timed_event) : nat :=
  match evs with
  | [] => O
  | Timer.Tick :: rest => S (ticks rest)
  | Timer.App _ :: rest => ticks rest
  end.

(** The event is a tick, a block or a key press: not a click. *)
Definition unclicked (ev : Timer.timed_event) : Prop :=
  match ev with
  | Timer.Tick => True
  | Timer.App ev => is_input ev
  end.

(** The countdown is running with [r] seconds left. *)
Definition counting (r : Z) (w : ResearchApp * Timer.Countdown * Disk) : Prop :=
  is_recording w.1.1 = true ∧ Timer.timer_running w.1.2 = true ∧
  Timer.remaining_time w.1.2 = r ∧ 0 <= r ∧
  (0 < Timer.scheduled w.1.2)%nat ∧
  Timer.timer_label w.1.2
  = (if bool_decide (0 < r) then "Time left: " +:+ pretty r +:+ " s"
     else EmptyString).

(** The session has been stopped. *)
Definition halted (w : ResearchApp * Timer.Countdown * Disk) : Prop :=
  is_recording w.1.1 = false ∧ Timer.timer_label w.1.2 = EmptyString ∧
  status_label w.1.1 = "Status: Idle" ∧
  stream_open w.1.1 = false ∧ listener_running w.1.1 = false.

(** ** Sample inputs *)

(** An application object with a four-sample buffer, two-sample segments
    and a session running. *)
Definition small_app : ResearchApp :=
  {| is_recording := true;
     fs := 4;
     buffer_samples := 4;
     segment_samples := 2;
     audio_buffer := replicate 4 F32.zero;
     input_device := Some 0%nat;
     output_dir := "recordings";
     status_label := "Status: Recording...";
     stream_open := true;
     listener_running := true |}.

(** The application as [__init__] builds it on a machine with one
    two-channel input device, after [start_recording] with the default
    duration. *)
Definition started_app : ResearchApp :=
  start_recording (init (Some [2])) (Some 60) None None.

(** The same on a machine without an input device. *)
Definition deviceless_app : ResearchApp :=
  start_recording (init (Some [0])) (Some 60) None None.

Definition key_a : pynput_key := KeyCode 65 (Some "a"%char) false.
Definition key_space : pynput_key := Key "space".
Definition key_shift : pynput_key := Key "shift".
Definition key_slash : pynput_key := KeyCode 191 (Some "/"%char) false.

Definition noon : datetime := mkDatetime 2024 1 2 12 0 0 250000.

Definition empty_disk : Disk := mkDisk ∅ [].

(** The samples 1.0, 0.5 and -0.25. *)
Definition one : F32.float32 := S754_finite false 8388608 (-23).
Definition half : F32.float32 := S754_finite false 8388608 (-24).
Definition minus_quarter : F32.float32 := S754_finite true 8388608 (-25).

(** * Properties *)

(** ** The rolling buffer *)

Section RollingBuffer.
Context {A : Type}.
Implicit Types a v block : list A.

Lemma roll_left a (n : nat) :
  (n < length a)%nat -> Numpy.roll a (- Z.of_nat n) = drop n a ++ take n a.
Proof.
  intros Hn. unfold Numpy.roll. destruct a as [|x a']; [simpl in Hn; lia|].
  rewrite Z.opp_involutive, Z.mod_small by lia.
  by rewrite Nat2Z.id.
Qed.

Lemma roll_full a : Numpy.roll a (- Z.of_nat (length a)) = a.
Proof.
  unfold Numpy.roll. destruct a as [|x a']; [done|].
  rewrite Z.opp_involutive, Z.mod_same by (simpl; lia).
  by rewrite drop_0, take_0, app_nil_r.
Qed.

Lemma length_roll a shift : length (Numpy.roll a shift) = length a.
Proof.
  unfold Numpy.roll. destruct a as [|x a']; [done|].
  set (k := Z.to_nat _).
  rewrite length_app, length_drop, length_take. lia.
Qed.

(** Rolling by a block that fits and overwriting the tail keeps the
    samples after the first [length block] and appends the block. *)
Lemma roll_then_assign a block :
  block_fits (length a) block ->
  Numpy.setitem_tail (Numpy.roll a (- Z.of_nat (length block)))
                     (length block) block
  = Some (drop (length block) a ++ block).
Proof.
  intros [Hpos Hle]. unfold Numpy.setitem_tail, Numpy.tail_start.
  rewrite length_roll.
  destruct (Nat.eqb_spec (length block) 0) as [?|_]; [lia|].
  replace (length a - (length a - length block))%nat with (length block) by lia.
  rewrite Nat.eqb_refl. f_equal. f_equal.
  destruct (decide (length block = length a)) as [Heq|Hne].
  - rewrite Heq, roll_full, Nat.sub_diag, take_0.
    by rewrite drop_all.
  - rewrite roll_left by lia.
    rewrite take_app_le by (rewrite length_drop; lia).
    apply take_ge. rewrite length_drop. lia.
Qed.

Lemma drop_app_block a block :
  (length block ≤ length a)%nat ->
  drop (length block) a ++ block = last_n (length a) (a ++ block).
Proof.
  intros Hle. unfold last_n. rewrite length_app.
  replace (length a + length block - length a)%nat with (length block) by lia.
  by rewrite drop_app_le.
Qed.

Lemma length_last_n (n : nat) (l : list A) :
  (n ≤ length l)%nat -> length (last_n n l) = n.
Proof. intros H. unfold last_n. rewrite length_drop. lia. Qed.

Lemma last_n_app_last_n (n : nat) (l rest : list A) :
  (n ≤ length l)%nat ->
  last_n n (last_n n l ++ rest) = last_n n (l ++ rest).
Proof.
  intros Hn. unfold last_n at 1 3.
  rewrite !length_app, length_last_n by done.
  replace (n + length rest - n)%nat with (length rest) by lia.
  destruct (decide (length rest ≤ n)%nat) as [Hle|Hgt].
  - rewrite !drop_app_le by (rewrite ?length_last_n; lia).
    f_equal. unfold last_n. rewrite drop_drop. f_equal. lia.
  - rewrite !drop_app_ge by (rewrite ?length_last_n; lia).
    rewrite length_last_n by done. f_equal. lia.
Qed.

Lemma last_n_all (l : list A) : last_n (length l) l = l.
Proof. unfold last_n. by rewrite Nat.sub_diag. Qed.

Lemma last_n_replicate_app (n : nat) (z : A) (l : list A) :
  (length l ≤ n)%nat ->
  last_n n (replicate n z ++ l) = replicate (n - length l) z ++ l.
Proof.
  intros H. unfold last_n. rewrite length_app, length_replicate.
  replace (n + length l - n)%nat with (length l) by lia.
  rewrite drop_app_le by (rewrite length_replicate; lia).
  by rewrite drop_replicate.
Qed.

Lemma last_n_app_long (n : nat) (l0 l : list A) :
  length l0 = n -> (n ≤ length l)%nat ->
  last_n n (l0 ++ l) = last_n n l.
Proof.
  intros H0 H. unfold last_n. rewrite length_app.
  rewrite drop_app_ge by lia. f_equal. lia.
Qed.

End RollingBuffer.

(** ** The callback keeps the trailing window *)

Lemma callback_fits st indata :
  is_recording st = true ->
  block_fits (length (audio_buffer st)) indata ->
  callback st indata
  = (set_audio_buffer st (last_n (length (audio_buffer st))
                                 (audio_buffer st ++ indata)), Returned).
Proof.
  intros Hrec Hfit. unfold callback. rewrite Hrec. simpl.
  rewrite roll_then_assign by done.
  rewrite drop_app_block by apply Hfit. done.
Qed.

(** A callback that is not recording leaves the object alone. *)
Lemma callback_idle st indata :
  is_recording st = false -> callback st indata = (st, Returned).
Proof. intros H. unfold callback. by rewrite H. Qed.

Lemma roll_none {A} (a : list A) : Numpy.roll a (- Z.of_nat 0) = a.
Proof.
  unfold Numpy.roll. destruct a as [|x a']; [done|].
  change (- - Z.of_nat 0) with 0. rewrite Z.mod_0_l by (simpl; lia).
  change (Z.to_nat 0) with 0%nat. by rewrite drop_0, take_0, app_nil_r.
Qed.

(** An empty block raises and leaves the samples as they were. *)
Lemma callback_empty_block st :
  is_recording st = true -> audio_buffer st ≠ [] ->
  callback st []
  = (st, Raised "ValueError: could not broadcast input array").
Proof.
  intros Hrec Hne. unfold callback. rewrite Hrec.
  cbn [negb length]. rewrite roll_none.
  unfold Numpy.setitem_tail, Numpy.tail_start. cbn [Nat.eqb length].
  rewrite Nat.sub_0_r.
  destruct (audio_buffer st) as [|x a'] eqn:Ha; [done|].
  cbn [length Nat.eqb]. rewrite <- Ha. by destruct st.
Qed.

(** A block longer than the buffer raises after the roll was stored. *)
Lemma callback_oversized st indata :
  is_recording st = true ->
  (0 < length (audio_buffer st) < length indata)%nat ->
  callback st indata
  = (set_audio_buffer st
       (Numpy.roll (audio_buffer st) (- Z.of_nat (length indata))),
     Raised "ValueError: could not broadcast input array").
Proof.
  intros Hrec Hlt. unfold callback. rewrite Hrec. simpl.
  unfold Numpy.setitem_tail, Numpy.tail_start. rewrite length_roll.
  destruct (Nat.eqb_spec (length indata) 0) as [?|_]; [lia|].
  replace (length (audio_buffer st) - length indata)%nat with 0%nat by lia.
  rewrite Nat.sub_0_r.
  destruct (Nat.eqb_spec (length indata) (length (audio_buffer st))); [lia|].
  destruct indata as [|x [|y rest]]; simpl in *; try lia; done.
Qed.

Lemma appends_window st blocks :
  is_recording st = true ->
  Forall (block_fits (length (audio_buffer st))) blocks ->
  appends st blocks
  = (set_audio_buffer st (last_n (length (audio_buffer st))
                                 (audio_buffer st ++ concat blocks)),
     Returned).
Proof.
  revert st. induction blocks as [|b blocks IH]; intros st Hrec Hfit.
  - simpl. rewrite app_nil_r, last_n_all. by destruct st.
  - apply Forall_cons in Hfit as [Hb Hrest]. simpl.
    rewrite callback_fits by done.
    set (st1 := set_audio_buffer st _).
    assert (Hlen : length (audio_buffer st1) = length (audio_buffer st)).
    { subst st1. simpl. apply length_last_n. rewrite length_app. lia. }
    rewrite IH; [|done|by rewrite Hlen].
    rewrite Hlen. subst st1. simpl. f_equal. f_equal.
    rewrite last_n_app_last_n; [by rewrite <- app_assoc| rewrite length_app; lia].
Qed.

Lemma snapshot_all st :
  length (audio_buffer st) = buffer_samples st ->
  snapshot_last st (buffer_samples st) = audio_buffer st.
Proof.
  intros H. unfold snapshot_last, Numpy.getitem_tail, Numpy.tail_start.
  rewrite H. destruct (Nat.eqb (buffer_samples st) 0); [done|].
  by rewrite Nat.sub_diag.
Qed.

Lemma length_concat_member {A} (b : list A) (blocks : list (list A)) :
  b ∈ blocks -> (length b ≤ length (concat blocks))%nat.
Proof.
  induction 1 as [b blocks|b b' blocks _ IH]; simpl; rewrite length_app; lia.
Qed.

(** A block no longer than the buffer, empty or not, leaves the trailing
    window behind. *)
Lemma callback_within st indata :
  is_recording st = true ->
  (length indata ≤ length (audio_buffer st))%nat ->
  fst (callback st indata)
  = set_audio_buffer st (last_n (length (audio_buffer st))
                                (audio_buffer st ++ indata)).
Proof.
  intros Hrec Hle. destruct indata as [|x indata].
  - rewrite app_nil_r, last_n_all.
    destruct (audio_buffer st) as [|y a] eqn:Ha.
    + unfold callback. rewrite Hrec, Ha. cbn. rewrite <- Ha. by destruct st.
    + rewrite callback_empty_block by (done || by rewrite Ha).
      cbn [fst]. rewrite <- Ha. by destruct st.
  - rewrite callback_fits; [done|done|]. split; [cbn; lia|done].
Qed.

Lemma feed_window st blocks :
  is_recording st = true ->
  Forall (fun block => (length block ≤ length (audio_buffer st))%nat) blocks ->
  feed st blocks
  = set_audio_buffer st (last_n (length (audio_buffer st))
                                (audio_buffer st ++ concat blocks)).
Proof.
  revert st. induction blocks as [|b blocks IH]; intros st Hrec Hfit.
  - cbn [feed fold_left concat]. rewrite app_nil_r, last_n_all.
    by destruct st.
  - apply Forall_cons in Hfit as [Hb Hrest].
    change (feed st (b :: blocks)) with (feed (fst (callback st b)) blocks).
    rewrite callback_within by done.
    set (st1 := set_audio_buffer st _).
    assert (Hlen : length (audio_buffer st1) = length (audio_buffer st)).
    { subst st1. simpl. apply length_last_n. rewrite length_app. lia. }
    rewrite IH; [|done|by rewrite Hlen].
    rewrite Hlen. subst st1. simpl. f_equal.
    rewrite last_n_app_last_n; [by rewrite <- app_assoc|rewrite length_app; lia].
Qed.

(** C1. Appending blocks with a total length of at most the capacity to
    the zero-initialised buffer: the snapshot of the last [buffer_samples]
    samples is the appended samples in append order behind a zero-filled
    front; and when every block has at least one frame, every callback
    returns. *)
Theorem snapshot_within_capacity st blocks :
  is_recording st = true ->
  audio_buffer st = replicate (buffer_samples st) F32.zero ->
  (length (concat blocks) ≤ buffer_samples st)%nat ->
  snapshot_last (feed st blocks) (buffer_samples (feed st blocks))
  = replicate (buffer_samples st - length (concat blocks)) F32.zero
    ++ concat blocks ∧
  (Forall (fun block => block ≠ []) blocks ->
   appends st blocks = (feed st blocks, Returned)).
Proof.
  intros Hrec Hbuf Htotal.
  assert (Hlen : length (audio_buffer st) = buffer_samples st).
  { by rewrite Hbuf, length_replicate. }
  assert (Hfit : Forall (fun block =>
                   (length block ≤ length (audio_buffer st))%nat) blocks).
  { apply Forall_forall. intros b Hb.
    pose proof (length_concat_member b blocks Hb). lia. }
  rewrite feed_window by done. split.
  - rewrite snapshot_all.
    + simpl. rewrite Hlen, Hbuf. by apply last_n_replicate_app.
    + simpl. rewrite length_last_n; [by rewrite Hlen|].
      rewrite length_app. lia.
  - intros Hne. apply appends_window; [done|].
    rewrite Forall_forall in Hfit, Hne. apply Forall_forall. intros b Hb.
    split; [|by apply Hfit]. specialize (Hne b Hb).
    destruct b; [done|simpl; lia].
Qed.

Lemma snapshot_within_capacity_witness :
  let blocks := [[one]; []; [half; minus_quarter]] in
  is_recording small_app = true ∧
  audio_buffer small_app = replicate (buffer_samples small_app) F32.zero ∧
  (length (concat blocks) ≤ buffer_samples small_app)%nat ∧
  snapshot_last (feed small_app blocks) (buffer_samples (feed small_app blocks))
  = [F32.zero; one; half; minus_quarter].
Proof.
  intros blocks.
  assert (H1 : is_recording small_app = true) by reflexivity.
  assert (H2 : audio_buffer small_app
               = replicate (buffer_samples small_app) F32.zero) by reflexivity.
  assert (H3 : (length (concat blocks) ≤ buffer_samples small_app)%nat)
    by (simpl; lia).
  split; [exact H1|]. split; [exact H2|]. split; [exact H3|].
  exact (proj1 (snapshot_within_capacity small_app blocks H1 H2 H3)).
Defined.

(** The constants of [__init__]. *)
Lemma init_buffer_samples query :
  Z.of_nat (buffer_samples (init query)) = 88200.
Proof. vm_compute. reflexivity. Qed.

Lemma init_segment_samples query :
  Z.of_nat (segment_samples (init query)) = 8820.
Proof. vm_compute. reflexivity. Qed.

Lemma started_app_buffer :
  audio_buffer started_app
  = replicate (buffer_samples started_app) F32.zero.
Proof. reflexivity. Qed.

Lemma started_app_capacity : Z.of_nat (buffer_samples started_app) = 88200.
Proof. exact (init_buffer_samples (Some [2])). Qed.

Lemma roll_replicate {A} (n : nat) (x : A) shift :
  Numpy.roll (replicate n x) shift = replicate n x.
Proof.
  unfold Numpy.roll. destruct n as [|n]; [done|].
  cbn [replicate]. rewrite <- (replicate_S n x).
  set (k := Z.to_nat _).
  assert (Hk : (k ≤ S n)%nat).
  { subst k. rewrite length_replicate.
    pose proof (Z.mod_pos_bound (- shift) (Z.of_nat (S n))). lia. }
  rewrite drop_replicate, take_replicate, <- replicate_add.
  f_equal. lia.
Qed.

(** C2, as stated, fails: one block of [buffer_samples + 1] samples makes
    the total exceed the capacity, yet the callback raises on it and the
    buffer does not hold the last [buffer_samples] samples of the block. *)
Lemma oversized_block_counterexample :
  let st := started_app in
  let blocks := [replicate (S (buffer_samples st)) one] in
  is_recording st = true ∧
  (buffer_samples st < length (concat blocks))%nat ∧
  snd (appends st blocks) ≠ Returned ∧
  snapshot_last (fst (appends st blocks)) (buffer_samples st)
  ≠ last_n (buffer_samples st) (concat blocks).
Proof.
  intros st blocks.
  pose proof started_app_capacity as Hcap. fold st in Hcap.
  assert (Hrec : is_recording st = true) by reflexivity.
  assert (Hbuf : audio_buffer st = replicate (buffer_samples st) F32.zero)
    by apply started_app_buffer.
  assert (Hrun : appends st blocks
                 = (set_audio_buffer st (replicate (buffer_samples st) F32.zero),
                    Raised "ValueError: could not broadcast input array")).
  { unfold blocks. cbn [appends].
    rewrite callback_oversized.
    - by rewrite Hbuf, roll_replicate.
    - done.
    - rewrite Hbuf, !length_replicate. lia. }
  split; [done|]. split.
  { unfold blocks. cbn [concat]. rewrite app_nil_r, length_replicate. lia. }
  rewrite Hrun. split; [done|].
  cbn [fst]. unfold snapshot_last, Numpy.getitem_tail, Numpy.tail_start.
  cbn [audio_buffer set_audio_buffer]. rewrite length_replicate.
  unfold blocks, last_n. cbn [concat]. rewrite app_nil_r, length_replicate.
  replace (S (buffer_samples st) - buffer_samples st)%nat with 1%nat by lia.
  destruct (buffer_samples st) as [|n] eqn:Hn; [simpl in Hcap; lia|].
  cbn [Nat.eqb]. rewrite Nat.sub_diag. cbn [drop replicate].
  intros Heq. discriminate Heq.
Qed.

(** C2, amended. When every append delivers between one and
    [buffer_samples] samples and the total exceeds the capacity, every
    callback returns and the snapshot is the last [buffer_samples] samples
    appended, oldest first, whatever the buffer held before; any other
    such partition of the same samples gives the same snapshot. *)
Theorem snapshot_beyond_capacity st blocks :
  is_recording st = true ->
  length (audio_buffer st) = buffer_samples st ->
  Forall (block_fits (buffer_samples st)) blocks ->
  (buffer_samples st < length (concat blocks))%nat ->
  ∃ st', appends st blocks = (st', Returned) ∧
         snapshot_last st' (buffer_samples st')
         = last_n (buffer_samples st) (concat blocks) ∧
         ∀ blocks', Forall (block_fits (buffer_samples st)) blocks' ->
                    concat blocks' = concat blocks ->
                    ∃ st'', appends st blocks' = (st'', Returned) ∧
                            snapshot_last st'' (buffer_samples st'')
                            = snapshot_last st' (buffer_samples st').
Proof.
  intros Hrec Hlen Hfit Htotal.
  assert (Hsnap : ∀ bs, Forall (block_fits (buffer_samples st)) bs ->
            concat bs = concat blocks ->
            ∃ st', appends st bs = (st', Returned) ∧
                   snapshot_last st' (buffer_samples st')
                   = last_n (buffer_samples st) (concat blocks)).
  { intros bs Hbs Hsame. eexists. split.
    - apply appends_window; [done|]. by rewrite Hlen.
    - rewrite snapshot_all.
      + simpl. rewrite Hlen, Hsame. apply last_n_app_long; [done|lia].
      + simpl. rewrite length_last_n; [by rewrite Hlen|].
        rewrite length_app. lia. }
  destruct (Hsnap blocks Hfit eq_refl) as (st' & Hrun & Hwin).
  exists st'. split; [done|]. split; [done|].
  intros blocks' Hfit' Hsame.
  destruct (Hsnap blocks' Hfit' Hsame) as (st'' & Hrun' & Hwin').
  exists st''. split; [done|]. by rewrite Hwin, Hwin'.
Qed.

Lemma snapshot_beyond_capacity_witness :
  let blocks := [[one; half; minus_quarter]; [half]; [one; one]] in
  is_recording small_app = true ∧
  length (audio_buffer small_app) = buffer_samples small_app ∧
  Forall (block_fits (buffer_samples small_app)) blocks ∧
  (buffer_samples small_app < length (concat blocks))%nat ∧
  ∃ st', appends small_app blocks = (st', Returned) ∧
         snapshot_last st' (buffer_samples st')
         = [minus_quarter; half; one; one].
Proof.
  intros blocks.
  assert (H1 : is_recording small_app = true) by reflexivity.
  assert (H2 : length (audio_buffer small_app) = buffer_samples small_app)
    by reflexivity.
  assert (H3 : Forall (block_fits (buffer_samples small_app)) blocks).
  { repeat constructor; simpl; lia. }
  assert (H4 : (buffer_samples small_app < length (concat blocks))%nat)
    by (simpl; lia).
  repeat split; try assumption.
  destruct (snapshot_beyond_capacity small_app blocks H1 H2 H3 H4)
    as (st' & Hrun & Hwin & _).
  exists st'. split; [exact Hrun|exact Hwin].
Defined.

(** ** The cost of one append *)

(** Counting the work does not change what the callback does. *)
Lemma cost_callback_erase st indata :
  fst (Cost.callback st indata) = callback st indata.
Proof.
  unfold Cost.callback, callback, Cost.bind, Cost.roll, Cost.setitem_tail,
    Cost.ret.
  destruct (is_recording st); [|done]. cbn [negb].
  by destruct (Numpy.setitem_tail _ _ _).
Qed.

Lemma cost_callback_fits st indata :
  is_recording st = true ->
  block_fits (length (audio_buffer st)) indata ->
  snd (Cost.callback st indata)
  = Cost.mkWork (length (audio_buffer st))
                (length (audio_buffer st) + length indata).
Proof.
  intros Hrec Hfit.
  unfold Cost.callback, Cost.bind, Cost.roll, Cost.setitem_tail, Cost.ret.
  rewrite Hrec. cbn [negb].
  rewrite roll_then_assign by done. cbn [snd Cost.allocated Cost.stored].
  rewrite length_roll. unfold Numpy.tail_start.
  destruct Hfit as [Hpos Hle].
  destruct (Nat.eqb_spec (length indata) 0) as [?|_]; [lia|].
  f_equal; lia.
Qed.

(** C3, as stated, fails: in the started application a one-sample block
    allocates an array of all 88200 samples, and over application objects
    of any capacity no multiple of the block length bounds the work of the
    callback. *)
Lemma full_shift_counterexample :
  Z.of_nat (Cost.allocated (snd (Cost.callback started_app [one]))) = 88200 ∧
  ¬ ∃ c : nat, ∀ st indata,
      is_recording st = true ->
      block_fits (length (audio_buffer st)) indata ->
      (Cost.allocated (snd (Cost.callback st indata))
       + Cost.stored (snd (Cost.callback st indata))
       ≤ c * length indata)%nat.
Proof.
  split.
  - pose proof started_app_capacity as Hcap.
    rewrite cost_callback_fits.
    + cbn [Cost.allocated]. rewrite started_app_buffer, length_replicate.
      exact Hcap.
    + reflexivity.
    + rewrite started_app_buffer, length_replicate. unfold block_fits.
      cbn [length]. lia.
  - intros [c Hbound].
    set (st := mkApp true 44100 (S c) 1 (replicate (S c) F32.zero)
                     (Some 0%nat) "recordings" "Status: Recording..."
                     true true).
    assert (Hrec : is_recording st = true) by done.
    assert (Hfit : block_fits (length (audio_buffer st)) [one]).
    { subst st. cbn [audio_buffer]. rewrite length_replicate.
      unfold block_fits. cbn [length]. lia. }
    specialize (Hbound st [one] Hrec Hfit).
    rewrite cost_callback_fits in Hbound by done.
    subst st. cbn [Cost.allocated Cost.stored audio_buffer length] in Hbound.
    rewrite length_replicate in Hbound. lia.
Qed.

(** C3, amended. The append is a full-buffer shift followed by an
    overwrite of the tail: for a block that fits, the callback allocates a
    fresh array of the whole buffer length, stores that many elements plus
    one per appended sample, and leaves the buffer linear, oldest sample
    first, with no write cursor in the state. *)
Theorem callback_is_full_shift st indata :
  is_recording st = true ->
  block_fits (length (audio_buffer st)) indata ->
  fst (Cost.callback st indata) = callback st indata ∧
  Cost.allocated (snd (Cost.callback st indata)) = length (audio_buffer st) ∧
  Cost.stored (snd (Cost.callback st indata))
  = (length (audio_buffer st) + length indata)%nat ∧
  callback st indata
  = (set_audio_buffer st (drop (length indata) (audio_buffer st) ++ indata),
     Returned).
Proof.
  intros Hrec Hfit. split; [apply cost_callback_erase|].
  rewrite cost_callback_fits by done. cbn [Cost.allocated Cost.stored].
  split; [done|]. split; [done|].
  rewrite callback_fits by done.
  by rewrite drop_app_block by apply Hfit.
Qed.

Lemma callback_is_full_shift_witness :
  is_recording small_app = true ∧
  block_fits (length (audio_buffer small_app)) [one] ∧
  Cost.allocated (snd (Cost.callback small_app [one])) = 4%nat ∧
  Cost.stored (snd (Cost.callback small_app [one])) = 5%nat ∧
  audio_buffer (fst (callback small_app [one]))
  = [F32.zero; F32.zero; F32.zero; one].
Proof.
  assert (H1 : is_recording small_app = true) by reflexivity.
  assert (H2 : block_fits (length (audio_buffer small_app)) [one]).
  { unfold block_fits. simpl. lia. }
  destruct (callback_is_full_shift small_app [one] H1 H2)
    as (_ & Halloc & Hstored & Hcall).
  split; [exact H1|]. split; [exact H2|].
  split; [exact Halloc|]. split; [exact Hstored|].
  rewrite Hcall. reflexivity.
Defined.

(** ** The key filter *)

Lemma length_append (s t : string) :
  String.length (s +:+ t) = (String.length s + String.length t)%nat.
Proof. induction s as [|c s IH]; simpl; [done|by rewrite IH]. Qed.

(** A member of the [Key] enumeration is recorded exactly when it is
    space, enter or backspace. *)
Lemma recorded_Key name :
  recorded_label (key_text (Key name)) = true
  ↔ name ∈ ["space"; "enter"; "backspace"].
Proof.
  unfold recorded_label. cbn [key_text str_key].
  replace (Str.isprintable ("Key." +:+ name)
           && Nat.eqb (Str.len ("Key." +:+ name)) 1) with false.
  2:{ symmetry. apply andb_false_intro2. unfold Str.len.
      rewrite length_append. done. }
  rewrite orb_false_l, bool_decide_eq_true.
  rewrite !elem_of_cons, !elem_of_nil.
  split.
  - intros [H|[H|[H|[]]]]; cbv [String.append] in H; simplify_eq; tauto.
  - intros [->|[->|[->|[]]]]; simpl; tauto.
Qed.

(** A key code without a character is never recorded. *)
Lemma recorded_KeyCode_no_char vk is_dead :
  recorded_label (key_text (KeyCode vk None is_dead)) = false.
Proof.
  unfold recorded_label. cbn [key_text str_key].
  destruct is_dead; [done|].
  apply orb_false_intro.
  - apply andb_false_intro2. unfold Str.len.
    rewrite !length_append. cbn [String.length].
    apply Nat.eqb_neq. lia.
  - apply bool_decide_eq_false. rewrite !elem_of_cons, !elem_of_nil.
    intros [H|[H|[H|[]]]]; discriminate H.
Qed.

(** A key code that types a character is recorded exactly when the
    character is printable. *)
Lemma recorded_KeyCode_char vk c is_dead :
  recorded_label (key_text (KeyCode vk (Some c) is_dead))
  = Str.isprintable_char c.
Proof.
  unfold recorded_label. cbn [key_text Str.isprintable Str.len String.length].
  cbn [Nat.eqb]. rewrite !andb_true_r.
  destruct (Str.isprintable_char c); [done|].
  cbn [orb]. apply bool_decide_eq_false.
  rewrite !elem_of_cons, !elem_of_nil.
  intros [H|[H|[H|[]]]]; discriminate H.
Qed.

Lemma recorded_iff k :
  recorded_label (key_text k) = true ↔ single_printable k ∨ named_control k.
Proof.
  destruct k as [vk [c|] is_dead|name].
  - rewrite recorded_KeyCode_char. split.
    + intros Hc. left. by exists vk, c, is_dead.
    + intros [(vk' & c' & dead' & Hk & Hc)|[H|[H|H]]]; [|done..].
      by simplify_eq.
  - rewrite recorded_KeyCode_no_char. split; [done|].
    intros [(vk' & c' & dead' & Hk & Hc)|[H|[H|H]]]; done.
  - rewrite recorded_Key, !elem_of_cons, elem_of_nil. unfold named_control.
    split.
    + intros [->|[->|[->|[]]]]; auto.
    + intros [(vk' & c' & dead' & Hk & Hc)|[H|[H|H]]]; simplify_eq; auto.
Qed.

Lemma on_press_recorded st d k now io :
  is_recording st = true -> recorded_label (key_text k) = true ->
  on_press st d k now io
  = (save_key_audio st d (key_text k) now io, [key_text k]).
Proof. intros Hrec Hk. unfold on_press. by rewrite Hrec, Hk. Qed.

(** In a session the listener runs only while a recording is on: every
    key press the listener sees finds [is_recording] set. *)
Lemma step_listening w ev :
  (listener_running w.1 = true -> is_recording w.1 = true) ->
  listener_running (step w ev).1 = true -> is_recording (step w ev).1 = true.
Proof.
  destruct w as [st d]. cbn [fst]. intros Hinv. unfold step.
  destruct ev as [duration stream_error hook_error| |indata|k now io].
  - destruct (is_recording st) eqn:Hrec; [done|]. cbn [fst].
    unfold start_recording.
    destruct duration as [n|]; [|by intros ?%Hinv].
    destruct (n <=? 0); [by intros ?%Hinv|]. intros _.
    unfold listen_keyboard, record_audio.
    cbn [input_device set_status set_is_recording].
    by destruct hook_error, (input_device st), stream_error.
  - done.
  - destruct (stream_open st); [|exact Hinv]. cbn [fst]. unfold callback.
    destruct (negb (is_recording st)); [exact Hinv|].
    destruct (Numpy.setitem_tail _ _ _); exact Hinv.
  - destruct (listener_running st) eqn:Hl;
      [|cbn [fst]; intros H; congruence].
    intros _. unfold on_press.
    destruct (negb (is_recording st)); [by apply Hinv|].
    destruct (recorded_label (key_text k)); [|by apply Hinv].
    cbn [fst]. unfold save_key_audio.
    destruct (normalize _); [|by apply Hinv]. destruct io; by apply Hinv.
Qed.

Lemma listening_is_recording query d evs :
  listener_running (run (init query, d) evs).1 = true ->
  is_recording (run (init query, d) evs).1 = true.
Proof.
  assert (Hgen : ∀ w, (listener_running w.1 = true -> is_recording w.1 = true) ->
            listener_running (run w evs).1 = true ->
            is_recording (run w evs).1 = true).
  { induction evs as [|ev evs IH]; intros w Hinv; [done|].
    cbn [run fold_left]. apply IH. by apply step_listening. }
  by apply Hgen.
Qed.

(** C5. While a recording is on, which is when the filter is in force and
    when the listener that delivers the presses runs, a key press produces
    a key event exactly when the key types one printable character or is
    space, enter or backspace. It then produces exactly one, the one call
    of [save_key_audio] with the key's text; any other key press produces
    none and changes neither the application nor the disk. *)
Theorem on_press_filter st d k now io :
  is_recording st = true ->
  ((∃ label, snd (on_press st d k now io) = [label])
   ↔ single_printable k ∨ named_control k) ∧
  (single_printable k ∨ named_control k ->
   on_press st d k now io
   = (save_key_audio st d (key_text k) now io, [key_text k])) ∧
  (¬ (single_printable k ∨ named_control k) ->
   on_press st d k now io = (st, d, [])).
Proof.
  intros Hrec. rewrite <- recorded_iff. unfold on_press.
  rewrite Hrec. cbn [negb].
  destruct (recorded_label (key_text k)); cbn [snd].
  - split; [|split]; [|done|done].
    split; [done|]. by exists (key_text k).
  - split; [|split]; [|done|done].
    split; [intros [? ?]; done|done].
Qed.

Lemma on_press_filter_witness :
  is_recording small_app = true ∧
  (single_printable key_a ∨ named_control key_a) ∧
  on_press small_app empty_disk key_a noon IoOk
  = (save_key_audio small_app empty_disk "a" noon IoOk, ["a"]) ∧
  ¬ (single_printable key_shift ∨ named_control key_shift) ∧
  on_press small_app empty_disk key_shift noon IoOk
  = (small_app, empty_disk, []).
Proof.
  assert (Hrec : is_recording small_app = true) by reflexivity.
  assert (Ha : single_printable key_a ∨ named_control key_a).
  { left. by exists 65%N, "a"%char, false. }
  assert (Hs : ¬ (single_printable key_shift ∨ named_control key_shift)).
  { intros H. apply recorded_iff in H. discriminate H. }
  split; [exact Hrec|]. split; [exact Ha|]. split.
  - exact (proj1 (proj2 (on_press_filter small_app empty_disk key_a noon IoOk
                           Hrec)) Ha).
  - split; [exact Hs|].
    exact (proj2 (proj2 (on_press_filter small_app empty_disk key_shift noon
                           IoOk Hrec)) Hs).
Defined.

(** ** File names and timestamps *)

Lemma isprintable_single s :
  Str.isprintable s && Nat.eqb (Str.len s) 1 = true ->
  ∃ c, s = String c EmptyString ∧ Str.isprintable_char c = true.
Proof.
  destruct s as [|c [|c' s]]; cbn; try done.
  - rewrite !andb_true_r. eauto.
  - by rewrite andb_false_r.
Qed.

Lemma append_inj_length (a a' b b' : string) :
  String.length a = String.length a' ->
  a +:+ b = a' +:+ b' -> a = a' ∧ b = b'.
Proof.
  revert a'. induction a as [|c a IH]; intros [|c' a'] Hlen Heq;
    try discriminate Hlen.
  - done.
  - cbn [String.append] in Heq. injection Heq as -> Heq.
    injection Hlen as Hlen. destruct (IH a' Hlen Heq) as [-> ->]. done.
Qed.

Lemma digit_inj (a b : N) :
  Str.digit a = Str.digit b -> (a mod 10 = b mod 10)%N.
Proof.
  unfold Str.digit. intros H.
  pose proof (N.mod_upper_bound a 10 ltac:(done)).
  pose proof (N.mod_upper_bound b 10 ltac:(done)).
  apply (f_equal N_of_ascii) in H.
  rewrite !N_ascii_embedding in H by lia. lia.
Qed.

Lemma length_zfill width n : String.length (Str.zfill width n) = width.
Proof.
  revert n. induction width as [|w IH]; intros n; [done|].
  cbn [Str.zfill]. rewrite length_append, IH. cbn [String.length]. lia.
Qed.

Lemma zfill_inj width (n m : N) :
  (n < 10 ^ N.of_nat width)%N -> (m < 10 ^ N.of_nat width)%N ->
  Str.zfill width n = Str.zfill width m -> n = m.
Proof.
  revert n m. induction width as [|w IH]; intros n m Hn Hm Heq.
  - change (10 ^ N.of_nat 0)%N with 1%N in *. lia.
  - rewrite Nat2N.inj_succ, N.pow_succ_r' in Hn, Hm.
    cbn [Str.zfill] in Heq.
    apply append_inj_length in Heq as [Hhigh Hlow];
      [|by rewrite !length_zfill].
    injection Hlow as Hlow. apply digit_inj in Hlow.
    assert (n / 10 = m / 10)%N as Hdiv.
    { apply IH; [| |done]; apply N.Div0.div_lt_upper_bound; lia. }
    rewrite (N.div_mod n 10), (N.div_mod m 10) by done. lia.
Qed.

Lemma length_strftime now : String.length (strftime now) = 22%nat.
Proof.
  unfold strftime. rewrite !length_append, !length_zfill. done.
Qed.

(** The timestamp tells instants apart down to the microsecond. *)
Lemma strftime_inj d1 d2 :
  datetime_ok d1 -> datetime_ok d2 -> strftime d1 = strftime d2 -> d1 = d2.
Proof.
  intros (Hy1 & Hm1 & Hd1 & Hh1 & Hmi1 & Hs1 & Hu1)
         (Hy2 & Hm2 & Hd2 & Hh2 & Hmi2 & Hs2 & Hu2) Heq.
  unfold strftime in Heq.
  do 8 (apply append_inj_length in Heq as [? Heq];
        [|by rewrite ?length_zfill]).
  destruct d1, d2; cbn [year month day hour minute second microsecond] in *.
  f_equal; (eapply zfill_inj; [| |eassumption]);
    cbn [N.of_nat Pos.of_succ_nat Pos.succ N.pow Pos.pow Pos.iter Pos.mul];
    lia.
Qed.

Lemma wav_filename_inj label1 now1 label2 now2 :
  wav_filename label1 now1 = wav_filename label2 now2 ->
  label1 = label2 ∧ strftime now1 = strftime now2.
Proof.
  unfold wav_filename. intros Heq.
  assert (String.length label1 = String.length label2) as Hlen.
  { apply (f_equal String.length) in Heq.
    rewrite !length_append, !length_strftime in Heq. lia. }
  apply append_inj_length in Heq as [-> Heq]; [|done].
  apply append_inj_length in Heq as [_ Heq]; [|done].
  apply append_inj_length in Heq as [Hts _]; [|by rewrite !length_strftime].
  done.
Qed.

Lemma getitem_tail_nonempty {A} (a : list A) n :
  a ≠ [] -> Numpy.getitem_tail a n ≠ [].
Proof.
  intros Ha. unfold Numpy.getitem_tail, Numpy.tail_start.
  destruct (Nat.eqb_spec n 0) as [_|Hn]; [done|].
  intros Hnil. apply (f_equal length) in Hnil.
  rewrite length_drop in Hnil. destruct a; [done|]. simpl in Hnil. lia.
Qed.

(** The conversion raises only on an empty segment. *)
Lemma normalize_None segment : normalize segment = None ↔ segment = [].
Proof.
  unfold normalize. destruct segment as [|x rest]; [done|].
  cbn [map F32.max]. by destruct (F32.ltb _ _).
Qed.

Lemma normalize_Some segment :
  segment ≠ [] -> ∃ ints, normalize segment = Some ints.
Proof.
  intros Hne. destruct (normalize segment) as [ints|] eqn:Hn; [eauto|].
  by apply normalize_None in Hn.
Qed.

(** [save_key_audio] touches no file but the one it names. *)
Lemma save_other_files st d label now io path :
  path ≠ wav_path st label now ->
  wav_files (snd (save_key_audio st d label now io)) !! path
  = wav_files d !! path.
Proof.
  intros Hne. unfold save_key_audio.
  destruct (normalize _); [|done].
  destruct io; cbn [snd wav_files]; try done; by rewrite lookup_insert_ne.
Qed.

(** C6, as stated, fails: the space bar is recorded under the label
    [Key.space], not [space], and so is its clip file named. *)
Lemma space_label_counterexample :
  snd (on_press started_app empty_disk key_space noon IoOk) = ["Key.space"] ∧
  is_Some (wav_files (snd (fst (on_press started_app empty_disk key_space
                                         noon IoOk)))
           !! "recordings/Key.space_20240102_120000_250000.wav") ∧
  ¬ ((∃ c, "Key.space" = String c EmptyString) ∨
     "Key.space" ∈ ["space"; "enter"; "backspace"]).
Proof.
  assert (Hpress : on_press started_app empty_disk key_space noon IoOk
                   = (save_key_audio started_app empty_disk "Key.space" noon IoOk,
                      ["Key.space"])) by reflexivity.
  rewrite Hpress. cbn [fst snd]. split; [done|]. split.
  - unfold save_key_audio.
    destruct (normalize_Some (snapshot_last started_app
                                (segment_samples started_app))) as [ints ->].
    + apply getitem_tail_nonempty. rewrite started_app_buffer.
      pose proof started_app_capacity as Hcap.
      generalize dependent (buffer_samples started_app).
      intros [|cap] Hcap; [lia|done].
    + cbn [snd wav_files].
      replace (wav_path started_app "Key.space" noon)
        with "recordings/Key.space_20240102_120000_250000.wav" by reflexivity.
      rewrite lookup_insert_eq. eauto.
  - rewrite !elem_of_cons, elem_of_nil.
    intros [[c H]|[H|[H|[H|[]]]]]; discriminate H.
Qed.

Lemma startswith_slash_append c rest :
  Str.startswith "/" (String c rest) = bool_decide (c = "/"%char).
Proof.
  unfold Str.startswith. cbn [String.prefix].
  destruct (ascii_dec "/" c) as [<-|Hne].
  - by destruct rest.
  - symmetry. apply bool_decide_eq_false. congruence.
Qed.

(** A clip's file name starts with a slash only for the label [/]. *)
Lemma filename_startswith_slash label now :
  recorded_label label = true ->
  Str.startswith "/" (wav_filename label now) = bool_decide (label = "/").
Proof.
  intros Hrec. unfold recorded_label in Hrec. unfold wav_filename.
  apply orb_true_iff in Hrec as [H|H].
  - apply isprintable_single in H as (c & -> & _).
    change (String c EmptyString +:+ ?r) with (String c r).
    rewrite startswith_slash_append. apply bool_decide_ext.
    split; [by intros ->|by intros [= ->]].
  - apply bool_decide_eq_true in H.
    rewrite !elem_of_cons, elem_of_nil in H.
    by destruct H as [->|[->|[->|[]]]].
Qed.

(** Where [os.path.join] puts the clip of a recorded label. *)
Lemma wav_path_cases st label now :
  recorded_label label = true ->
  output_dir st ≠ EmptyString ->
  Str.endswith_char "/" (output_dir st) = false ->
  wav_path st label now
  = if bool_decide (label = "/") then wav_filename label now
    else output_dir st +:+ "/" +:+ wav_filename label now.
Proof.
  intros Hrec Hdir Hend. unfold wav_path, os_path_join.
  rewrite filename_startswith_slash by done.
  destruct (bool_decide (label = "/")); [done|].
  rewrite Hend, orb_false_r.
  destruct (String.eqb_spec (output_dir st) EmptyString); done.
Qed.

Lemma contains_char_append c (a b : string) :
  Str.contains_char c (a +:+ b)
  = Str.contains_char c a || Str.contains_char c b.
Proof.
  induction a as [|x a IH]; [done|].
  change (String x a +:+ b) with (String x (a +:+ b)).
  cbn [Str.contains_char]. by rewrite IH, orb_assoc.
Qed.

Lemma zfill_no_slash width n : Str.contains_char "/" (Str.zfill width n) = false.
Proof.
  revert n. induction width as [|w IH]; intros n; [done|].
  cbn [Str.zfill]. rewrite contains_char_append, IH.
  cbn [Str.contains_char orb]. rewrite orb_false_r.
  apply Ascii.eqb_neq. unfold Str.digit. intros Heq.
  pose proof (N.mod_upper_bound n 10 ltac:(done)) as Hlt.
  apply (f_equal N_of_ascii) in Heq.
  rewrite N_ascii_embedding in Heq by lia.
  change (N_of_ascii "/") with 47%N in Heq.
  clear IH Hlt. generalize dependent (n mod 10)%N. intros r Heq. lia.
Qed.

Lemma strftime_no_slash now : Str.contains_char "/" (strftime now) = false.
Proof.
  unfold strftime. rewrite !contains_char_append, !zfill_no_slash. done.
Qed.

(** Apart from the label [/] itself, a clip's file name has no slash in
    it: as a path it names a file and no directory. *)
Lemma filename_no_slash label now :
  recorded_label label = true -> label ≠ "/" ->
  Str.contains_char "/" (wav_filename label now) = false.
Proof.
  intros Hrec Hlabel. unfold wav_filename.
  rewrite !contains_char_append, strftime_no_slash.
  cbn [Str.contains_char Ascii.eqb orb]. rewrite !orb_false_r.
  unfold recorded_label in Hrec. apply orb_true_iff in Hrec as [H|H].
  - apply isprintable_single in H as (c & -> & _).
    cbn [Str.contains_char]. rewrite orb_false_r.
    apply Ascii.eqb_neq. by intros ->.
  - apply bool_decide_eq_true in H.
    rewrite !elem_of_cons, elem_of_nil in H.
    by destruct H as [->|[->|[->|[]]]].
Qed.

(** C6, amended. A key press that produces a key event labels it with one
    printable character or with the text [Key.space], [Key.enter] or
    [Key.backspace]. With an output directory that is not empty and does
    not end in a slash, as [recordings], every file the press creates or
    changes is the clip named [<label>_<timestamp>.wav] in the output
    directory, a name without a slash in it; the one exception is the
    label [/], whose name starts with a slash, so that [os.path.join]
    drops the directory and the clip is [/_<timestamp>.wav], at the root
    of the file system. The clip exists after a save that the file system
    lets through, and the timestamp has microsecond resolution: it
    differs between any two instants. *)
Theorem clip_file_name st d k now io label :
  output_dir st ≠ EmptyString ->
  Str.endswith_char "/" (output_dir st) = false ->
  snd (on_press st d k now io) = [label] ->
  let name := label +:+ "_" +:+ strftime now +:+ ".wav" in
  let path := if bool_decide (label = "/") then name
              else output_dir st +:+ "/" +:+ name in
  ((∃ c, label = String c EmptyString ∧ Str.isprintable_char c = true)
   ∨ label ∈ ["Key.space"; "Key.enter"; "Key.backspace"]) ∧
  (label ≠ "/" -> Str.contains_char "/" name = false) ∧
  (∀ p,
     wav_files (snd (fst (on_press st d k now io))) !! p
     ≠ wav_files d !! p ->
     p = path) ∧
  (io = IoOk -> audio_buffer st ≠ [] ->
   is_Some (wav_files (snd (fst (on_press st d k now io))) !! path)) ∧
  (∀ now', datetime_ok now -> datetime_ok now' ->
           strftime now' = strftime now -> now' = now).
Proof.
  intros Hdir Hend Hev name path. unfold on_press in *.
  destruct (is_recording st); cbn [negb] in *; [|done].
  destruct (recorded_label (key_text k)) eqn:Hrec; [|done].
  cbn [snd fst] in *. injection Hev as <-.
  assert (Hpath : wav_path st (key_text k) now = path)
    by by apply wav_path_cases.
  split; [|split; [|split; [|split]]].
  - unfold recorded_label in Hrec. apply orb_true_iff in Hrec as [H|H].
    + left. by apply isprintable_single.
    + right. by apply bool_decide_eq_true in H.
  - intros Hlabel. by apply filename_no_slash.
  - intros p Hchanged. rewrite <- Hpath.
    destruct (decide (p = wav_path st (key_text k) now)) as [->|Hne];
      [done|].
    by rewrite save_other_files in Hchanged.
  - intros -> Hbuf. rewrite <- Hpath. unfold save_key_audio.
    destruct (normalize_Some (snapshot_last st (segment_samples st)))
      as [ints ->]; [by apply getitem_tail_nonempty|].
    cbn [snd wav_files]. rewrite lookup_insert_eq. eauto.
  - intros now' Hok Hok' Heq. by apply strftime_inj.
Qed.

Lemma clip_file_name_witness :
  output_dir small_app ≠ EmptyString ∧
  Str.endswith_char "/" (output_dir small_app) = false ∧
  snd (on_press small_app empty_disk key_space noon IoOk) = ["Key.space"] ∧
  is_Some (wav_files (snd (fst (on_press small_app empty_disk key_space
                                         noon IoOk)))
           !! "recordings/Key.space_20240102_120000_250000.wav") ∧
  snd (on_press small_app empty_disk key_slash noon IoOk) = ["/"] ∧
  is_Some (wav_files (snd (fst (on_press small_app empty_disk key_slash
                                         noon IoOk)))
           !! "/_20240102_120000_250000.wav").
Proof.
  assert (Hdir : output_dir small_app ≠ EmptyString) by (simpl; discriminate).
  assert (Hend : Str.endswith_char "/" (output_dir small_app) = false)
    by reflexivity.
  assert (Hspace : snd (on_press small_app empty_disk key_space noon IoOk)
                   = ["Key.space"]) by reflexivity.
  assert (Hslash : snd (on_press small_app empty_disk key_slash noon IoOk)
                   = ["/"]) by reflexivity.
  assert (Hbuf : audio_buffer small_app ≠ []) by (simpl; discriminate).
  split; [exact Hdir|]. split; [exact Hend|]. split; [exact Hspace|]. split.
  - exact (proj1 (proj2 (proj2 (proj2
             (clip_file_name small_app empty_disk key_space noon IoOk
                "Key.space" Hdir Hend Hspace)))) eq_refl Hbuf).
  - split; [exact Hslash|].
    exact (proj1 (proj2 (proj2 (proj2
             (clip_file_name small_app empty_disk key_slash noon IoOk
                "/" Hdir Hend Hslash)))) eq_refl Hbuf).
Defined.

(** ** A session without an input device *)

Lemma max_zeros n :
  fold_left F32.maximum (replicate n F32.zero) F32.zero = F32.zero.
Proof. induction n as [|n IH]; [done|]. cbn [replicate fold_left]. exact IH. Qed.

(** An all-zero segment is encoded as an all-zero clip. *)
Lemma normalize_zeros n :
  normalize (replicate (S n) F32.zero) = Some (replicate (S n) 0).
Proof.
  unfold normalize. rewrite fmap_replicate.
  change (F32.abs F32.zero) with F32.zero.
  cbn [replicate F32.max]. rewrite max_zeros.
  change (F32.ltb F32.zero F32.zero) with false. cbn iota.
  rewrite <- replicate_S, fmap_replicate. done.
Qed.

Lemma getitem_tail_replicate {A} (x : A) (len n : nat) :
  (0 < n ≤ len)%nat ->
  Numpy.getitem_tail (replicate len x) n = replicate n x.
Proof.
  intros [Hpos Hle]. unfold Numpy.getitem_tail, Numpy.tail_start.
  rewrite length_replicate.
  destruct (Nat.eqb_spec n 0) as [?|_]; [lia|].
  rewrite drop_replicate. f_equal. lia.
Qed.

Lemma save_key_audio_fields st d label now io :
  let st' := fst (save_key_audio st d label now io) in
  is_recording st' = is_recording st ∧ fs st' = fs st ∧
  buffer_samples st' = buffer_samples st ∧
  segment_samples st' = segment_samples st ∧
  audio_buffer st' = audio_buffer st ∧ input_device st' = input_device st ∧
  output_dir st' = output_dir st ∧ stream_open st' = stream_open st ∧
  listener_running st' = listener_running st.
Proof.
  unfold save_key_audio. destruct (normalize _); [|done].
  by destruct io.
Qed.

Lemma on_press_fields st d k now io :
  let st' := fst (fst (on_press st d k now io)) in
  is_recording st' = is_recording st ∧ fs st' = fs st ∧
  buffer_samples st' = buffer_samples st ∧
  segment_samples st' = segment_samples st ∧
  audio_buffer st' = audio_buffer st ∧ input_device st' = input_device st ∧
  output_dir st' = output_dir st ∧ stream_open st' = stream_open st ∧
  listener_running st' = listener_running st.
Proof.
  unfold on_press. destruct (negb _); [done|].
  destruct (recorded_label _); [|done].
  apply save_key_audio_fields.
Qed.

Lemma step_deviceless st0 st d ev :
  deviceless st0 st -> deviceless st0 (fst (step (st, d) ev)).
Proof.
  intros (Hdev & Hstream & Hbuf & Hseg & Hfs & Hout). unfold step.
  destruct ev as [duration stream_error hook_error| |indata|k now io].
  - destruct (is_recording st); [done|]. cbn [fst].
    unfold start_recording. destruct duration as [n|]; [|done].
    destruct (n <=? 0); [done|].
    unfold record_audio. cbn [input_device set_status set_is_recording].
    rewrite Hdev. unfold listen_keyboard. by destruct hook_error.
  - done.
  - by rewrite Hstream.
  - destruct (listener_running st); [|done].
    destruct (on_press_fields st d k now io)
      as (_ & Hf & _ & Hs & Hb & Hd & Ho & Hso & _).
    unfold deviceless. by rewrite Hf, Hs, Hb, Hd, Ho, Hso.
Qed.

Lemma run_deviceless st0 st d evs :
  deviceless st0 st -> deviceless st0 (fst (run (st, d) evs)).
Proof.
  revert st d. induction evs as [|ev evs IH]; intros st d Hst; [done|].
  cbn [run fold_left]. destruct (step (st, d) ev) as [st1 d1] eqn:Hstep.
  apply IH. replace st1 with (fst (step (st, d) ev)) by by rewrite Hstep.
  by apply step_deviceless.
Qed.

Lemma start_without_device query duration stream_error :
  select_input_device query = None -> 0 < duration ->
  start_recording (init query) (Some duration) stream_error None
  = set_listener_running
      (set_status
         (set_status (set_is_recording (init query) true)
                     "Status: Recording...")
         "Audio error: No valid input device found")
      true.
Proof.
  intros Hnone Hpos. unfold start_recording.
  destruct (Z.leb_spec duration 0) as [?|_]; [lia|].
  unfold record_audio. cbn [input_device set_status set_is_recording init].
  by rewrite Hnone.
Qed.

(** C7, as stated, fails: without an input device the session reports the
    audio error, and a key press still writes a clip file. *)
Lemma deviceless_clip_counterexample :
  input_device deviceless_app = None ∧
  status_label deviceless_app = "Audio error: No valid input device found" ∧
  is_Some (wav_files (snd (run (deviceless_app, empty_disk)
                               [EvKey key_a noon IoOk]))
           !! "recordings/a_20240102_120000_250000.wav").
Proof.
  split; [reflexivity|]. split; [reflexivity|].
  assert (Hrun : run (deviceless_app, empty_disk) [EvKey key_a noon IoOk]
                 = save_key_audio deviceless_app empty_disk "a" noon IoOk)
    by reflexivity.
  rewrite Hrun. unfold save_key_audio.
  destruct (normalize_Some (snapshot_last deviceless_app
                              (segment_samples deviceless_app))) as [ints ->].
  - apply getitem_tail_nonempty.
    change (audio_buffer deviceless_app)
      with (replicate (buffer_samples (init (Some [0]))) F32.zero).
    pose proof (init_buffer_samples (Some [0])) as Hcap.
    generalize dependent (buffer_samples (init (Some [0]))).
    intros [|cap] Hcap; [lia|done].
  - cbn [snd wav_files].
    replace (wav_path deviceless_app "a" noon)
      with "recordings/a_20240102_120000_250000.wav" by reflexivity.
    rewrite lookup_insert_eq. eauto.
Qed.

(** C7, amended. When no input-capable device is available, starting a
    session reports the audio error to the status label and no stream is
    ever opened, so the buffer stays all zero; key events during the
    session still produce clip files, each of [segment_samples] zero
    samples. *)
Theorem no_device_session query duration stream_error d evs k now :
  select_input_device query = None -> 0 < duration ->
  let st0 := start_recording (init query) (Some duration) stream_error None in
  let w := run (st0, d) evs in
  status_label st0 = "Audio error: No valid input device found" ∧
  stream_open (fst w) = false ∧
  audio_buffer (fst w) = replicate (buffer_samples (init query)) F32.zero ∧
  (is_recording (fst w) = true -> single_printable k ∨ named_control k ->
   wav_files (snd (fst (on_press (fst w) (snd w) k now IoOk)))
     !! wav_path (fst w) (key_text k) now
   = Some (mkWav 1 2 44100 (replicate (segment_samples (init query)) 0))).
Proof.
  intros Hnone Hpos st0 w.
  assert (Hst0 : st0 = set_listener_running
      (set_status
         (set_status (set_is_recording (init query) true)
                     "Status: Recording...")
         "Audio error: No valid input device found") true)
    by by apply start_without_device.
  assert (Hinv : deviceless st0 (fst w)).
  { apply run_deviceless. rewrite Hst0. unfold deviceless.
    cbn [input_device set_listener_running set_status set_is_recording init].
    by rewrite Hnone. }
  destruct Hinv as (Hdev & Hstream & Hbuf & Hseg & Hfs & Hout).
  assert (Hbuf0 : audio_buffer st0
                  = replicate (buffer_samples (init query)) F32.zero)
    by by rewrite Hst0.
  assert (Hseg0 : segment_samples st0 = segment_samples (init query))
    by by rewrite Hst0.
  assert (Hfs0 : fs st0 = 44100) by by rewrite Hst0.
  split; [by rewrite Hst0|]. split; [done|]. split; [by rewrite Hbuf|].
  intros Hrec Hkey.
  rewrite on_press_recorded by (done || by apply recorded_iff).
  cbn [fst snd]. unfold save_key_audio, snapshot_last.
  rewrite Hbuf, Hbuf0, Hseg, Hseg0, Hfs, Hfs0.
  pose proof (init_buffer_samples query) as Hcap.
  pose proof (init_segment_samples query) as Hsegn.
  generalize dependent (buffer_samples (init query)).
  generalize dependent (segment_samples (init query)).
  intros seg Hseg0 Hsegn cap Hbuf0 Hcap.
  rewrite getitem_tail_replicate by lia.
  destruct seg as [|n]; [lia|].
  rewrite normalize_zeros. cbn [snd wav_files].
  apply lookup_insert_eq.
Qed.

Lemma no_device_session_witness :
  select_input_device (Some [0]) = None ∧ 0 < 60 ∧
  status_label deviceless_app = "Audio error: No valid input device found" ∧
  stream_open (fst (run (deviceless_app, empty_disk)
                        [EvAudio [one]; EvKey key_shift noon IoOk])) = false.
Proof.
  assert (H1 : select_input_device (Some [0]) = None) by reflexivity.
  assert (H2 : 0 < 60) by reflexivity.
  destruct (no_device_session (Some [0]) 60 None empty_disk
              [EvAudio [one]; EvKey key_shift noon IoOk] key_a noon H1 H2)
    as (Hstatus & Hstream & _).
  split; [exact H1|]. split; [exact H2|].
  split; [exact Hstatus|exact Hstream].
Defined.

(** ** A save that fails *)

Lemma normalize_length segment ints :
  normalize segment = Some ints -> length ints = length segment.
Proof.
  unfold normalize. destruct (F32.max _); [|done].
  destruct (F32.ltb _ _); intros [= <-]; by rewrite length_fmap.
Qed.

(** C8, as stated, fails: a second press of the same key in the same
    microsecond whose write fails truncates the clip the first press had
    written. *)
Lemma overwritten_clip_counterexample :
  let w1 := run (started_app, empty_disk) [EvKey key_a noon IoOk] in
  let w2 := step w1 (EvKey key_a noon
                           (WaveWriteError "No space left on device" 0)) in
  let path := "recordings/a_20240102_120000_250000.wav" in
  (∃ clip, wav_files (snd w1) !! path = Some clip ∧ wav_frames clip ≠ []) ∧
  (∃ clip, wav_files (snd w2) !! path = Some clip ∧ wav_frames clip = []).
Proof.
  intros w1 w2 path.
  assert (Hw1 : w1 = save_key_audio started_app empty_disk "a" noon IoOk)
    by reflexivity.
  destruct (normalize_Some (snapshot_last started_app
                              (segment_samples started_app)))
    as [ints Hints].
  { apply getitem_tail_nonempty. rewrite started_app_buffer.
    pose proof started_app_capacity as Hcap.
    generalize dependent (buffer_samples started_app).
    intros [|cap] Hcap; [lia|done]. }
  assert (Hne : ints ≠ []).
  { intros ->. apply normalize_length in Hints. symmetry in Hints.
    apply length_zero_iff_nil in Hints. revert Hints.
    apply getitem_tail_nonempty. rewrite started_app_buffer.
    pose proof started_app_capacity as Hcap.
    generalize dependent (buffer_samples started_app).
    intros [|cap] Hcap; [lia|done]. }
  unfold save_key_audio in Hw1. rewrite Hints in Hw1.
  replace (wav_path started_app "a" noon) with path in Hw1 by reflexivity.
  split.
  - rewrite Hw1. cbn [snd wav_files]. rewrite lookup_insert_eq. eauto.
  - unfold w2. rewrite Hw1. unfold step.
    change (listener_running started_app) with true. cbn iota.
    unfold on_press. change (is_recording started_app) with true.
    cbn [negb fst snd].
    change (recorded_label (key_text key_a)) with true. cbn iota.
    unfold save_key_audio. rewrite Hints. cbn [fst snd wav_files].
    replace (wav_path started_app (key_text key_a) noon) with path
      by reflexivity.
    rewrite lookup_insert_eq. eauto.
Qed.

(** C8, amended. A save that the file system fails ends in the [except]
    branch: the error goes to the status label and nothing else of the
    application changes, so the session continues; no metadata row is
    added, the rows already written stay, and so does every clip file
    except one that bears the event's own file name. *)
Theorem save_failure_contained st d key_label now io :
  io ≠ IoOk ->
  let st' := fst (save_key_audio st d key_label now io) in
  let d' := snd (save_key_audio st d key_label now io) in
  (∃ e, st' = set_status st ("Save error: " +:+ e)) ∧
  is_recording st' = is_recording st ∧
  audio_buffer st' = audio_buffer st ∧
  stream_open st' = stream_open st ∧
  listener_running st' = listener_running st ∧
  metadata d' = metadata d ∧
  (∀ path, path ≠ wav_path st key_label now ->
           wav_files d' !! path = wav_files d !! path).
Proof.
  intros Hio st' d'.
  destruct (save_key_audio_fields st d key_label now io)
    as (Hrec & _ & _ & _ & Hbuf & _ & _ & Hstream & Hlisten).
  split; [|split; [done|split; [done|split; [done|split; [done|split]]]]].
  - subst st'. unfold save_key_audio, save_error.
    destruct (normalize _); [|eauto]. destruct io; cbn [fst]; eauto. done.
  - subst d'. unfold save_key_audio.
    destruct (normalize _); [|done]. by destruct io.
  - intros path Hne. by apply save_other_files.
Qed.

Lemma save_failure_contained_witness :
  CsvOpenError "Permission denied" ≠ IoOk ∧
  status_label (fst (save_key_audio small_app empty_disk "a" noon
                                    (CsvOpenError "Permission denied")))
  = "Save error: Permission denied" ∧
  metadata (snd (save_key_audio small_app empty_disk "a" noon
                                (CsvOpenError "Permission denied"))) = [].
Proof.
  assert (H : CsvOpenError "Permission denied" ≠ IoOk) by discriminate.
  destruct (save_failure_contained small_app empty_disk "a" noon
              (CsvOpenError "Permission denied") H)
    as (_ & _ & _ & _ & _ & Hrows & _).
  split; [exact H|]. split; [reflexivity|exact Hrows].
Defined.

(** ** The metadata log and the clip directory *)

(** A save the file system lets through writes the encoded segment as a
    mono 16-bit clip at the sample rate and logs its row. *)
Lemma save_ok st d key_label now :
  audio_buffer st ≠ [] ->
  ∃ ints,
    normalize (snapshot_last st (segment_samples st)) = Some ints ∧
    save_key_audio st d key_label now IoOk
    = (st, mkDisk (<[wav_path st key_label now := mkWav 1 2 (fs st) ints]>
                     (wav_files d))
                  (metadata d ++ [row_of (key_label, now)])).
Proof.
  intros Hbuf. unfold save_key_audio.
  destruct (normalize_Some (snapshot_last st (segment_samples st)))
    as [ints ->]; [by apply getitem_tail_nonempty|].
  by exists ints.
Qed.

(** One save keeps the files there are and logs at most its own row,
    whose clip it has then written. *)
Lemma save_key_audio_log st d key_label now io :
  let d' := snd (save_key_audio st d key_label now io) in
  (∀ path, is_Some (wav_files d !! path) -> is_Some (wav_files d' !! path)) ∧
  (metadata d' = metadata d ∨
   metadata d' = metadata d ++ [row_of (key_label, now)] ∧
   is_Some (wav_files d' !! wav_path st key_label now)).
Proof.
  unfold save_key_audio. destruct (normalize _) as [ints|]; [|by auto].
  destruct io; cbn [snd wav_files metadata]; (split; [|auto]); try done;
    try (intros path Hsome;
         destruct (decide (wav_path st key_label now = path)) as [->|Hne];
         [rewrite lookup_insert_eq; eauto|by rewrite lookup_insert_ne]).
  right. split; [done|]. rewrite lookup_insert_eq. eauto.
Qed.

Lemma step_output_dir w ev : output_dir (step w ev).1 = output_dir w.1.
Proof.
  destruct w as [st d]. unfold step.
  destruct ev as [duration stream_error hook_error| |indata|k now io].
  - destruct (is_recording st); [done|]. cbn [fst].
    unfold start_recording. destruct duration as [n|]; [|done].
    destruct (n <=? 0); [done|].
    unfold listen_keyboard, record_audio.
    cbn [input_device set_status set_is_recording].
    by destruct hook_error, (input_device st), stream_error.
  - done.
  - destruct (stream_open st); [|done]. cbn [fst]. unfold callback.
    destruct (negb _); [done|]. by destruct (Numpy.setitem_tail _ _ _).
  - destruct (listener_running st); [|done].
    by destruct (on_press_fields st d k now io)
      as (_ & _ & _ & _ & _ & _ & Ho & _).
Qed.

(** One event keeps the files there are and logs at most the row of its
    own key press. *)
Lemma step_log w ev :
  (∀ path, is_Some (wav_files w.2 !! path) ->
           is_Some (wav_files (step w ev).2 !! path)) ∧
  (metadata (step w ev).2 = metadata w.2 ∨
   ∃ stamp, key_stamps [ev] = [stamp] ∧
            metadata (step w ev).2 = metadata w.2 ++ [row_of stamp] ∧
            is_Some (wav_files (step w ev).2
                     !! os_path_join (output_dir w.1) (wav_file (row_of stamp)))).
Proof.
  destruct w as [st d]. unfold step.
  destruct ev as [duration stream_error hook_error| |indata|k now io].
  1: by destruct (is_recording st); auto.
  1: by auto.
  1: by destruct (stream_open st); auto.
  destruct (listener_running st); [|by auto].
  unfold on_press. destruct (negb _); [by auto|].
  destruct (recorded_label _); [|by auto]. cbn [fst snd].
  destruct (save_key_audio_log st d (key_text k) now io) as [Hkeep Hrows].
  split; [done|]. destruct Hrows as [?|[? ?]]; [by left|right].
  by exists (key_text k, now).
Qed.

Lemma key_stamps_cons ev evs :
  key_stamps (ev :: evs) = key_stamps [ev] ++ key_stamps evs.
Proof. by destruct ev. Qed.

(** Over a whole run: files are never removed, and the log grows by the
    rows of some of the key presses, in order, each with its clip. *)
Lemma run_log w evs :
  (∀ path, is_Some (wav_files w.2 !! path) ->
           is_Some (wav_files (run w evs).2 !! path)) ∧
  output_dir (run w evs).1 = output_dir w.1 ∧
  ∃ stamps,
    sublist stamps (key_stamps evs) ∧
    metadata (run w evs).2 = metadata w.2 ++ (row_of <$> stamps) ∧
    ∀ stamp, stamp ∈ stamps ->
      is_Some (wav_files (run w evs).2
               !! os_path_join (output_dir w.1) (wav_file (row_of stamp))).
Proof.
  revert w. induction evs as [|ev evs IH]; intros w.
  - cbn [run fold_left]. split; [done|]. split; [done|].
    exists []. split; [done|]. split; [by rewrite app_nil_r|].
    intros stamp Hin. by apply elem_of_nil in Hin.
  - change (run w (ev :: evs)) with (run (step w ev) evs).
    destruct (IH (step w ev)) as (Hkeep & Hdir & stamps & Hsub & Hrows & Hfiles).
    destruct (step_log w ev) as [Hkeep1 Hrows1].
    rewrite step_output_dir in Hdir, Hfiles.
    split; [by auto|]. split; [done|].
    rewrite key_stamps_cons.
    destruct Hrows1 as [Hsame|(stamp & Hstamp & Hrow & Hfile)].
    + exists stamps. split; [by apply sublist_inserts_l|].
      split; [by rewrite Hrows, Hsame|done].
    + exists (stamp :: stamps). rewrite Hstamp. split; [by apply sublist_skip|].
      split.
      * rewrite Hrows, Hrow, fmap_cons, <- app_assoc. done.
      * intros stamp' [->|Hin]%elem_of_cons; [|by auto].
        by apply Hkeep.
Qed.

Lemma row_of_name_inj stamp1 stamp2 :
  datetime_ok stamp1.2 -> datetime_ok stamp2.2 ->
  wav_file (row_of stamp1) = wav_file (row_of stamp2) -> stamp1 = stamp2.
Proof.
  destruct stamp1 as [l1 t1], stamp2 as [l2 t2]. cbn. intros Hok1 Hok2 Heq.
  apply wav_filename_inj in Heq as [-> Hts].
  by rewrite (strftime_inj t1 t2).
Qed.

(** C9, as stated, fails: two presses of the same key in the same
    microsecond log two rows that name the same clip file. *)
Lemma same_microsecond_counterexample :
  ¬ names_unique (run (started_app, empty_disk)
                      [EvKey key_a noon IoOk; EvKey key_a noon IoOk]).2.
Proof.
  assert (Hbuf : audio_buffer started_app ≠ []).
  { rewrite started_app_buffer.
    pose proof started_app_capacity as Hcap.
    generalize dependent (buffer_samples started_app).
    intros [|cap] Hcap; [lia|done]. }
  assert (Hstep : ∀ d, step (started_app, d) (EvKey key_a noon IoOk)
                       = save_key_audio started_app d "a" noon IoOk)
    by reflexivity.
  cbn [run fold_left]. rewrite Hstep.
  destruct (save_ok started_app empty_disk "a" noon Hbuf)
    as (ints1 & _ & ->).
  rewrite Hstep.
  destruct (save_ok started_app
              (mkDisk (<[wav_path started_app "a" noon
                         := mkWav 1 2 (fs started_app) ints1]>
                         (wav_files empty_disk))
                      (metadata empty_disk ++ [row_of ("a", noon)]))
              "a" noon Hbuf) as (ints2 & _ & ->).
  unfold names_unique. cbn [snd metadata empty_disk app fmap list_fmap].
  intros Hnodup. apply NoDup_cons in Hnodup as [Hnotin _].
  apply Hnotin. constructor.
Qed.

(** C9, amended. At every point of a session every metadata row names a
    clip file that exists; and the logged file names are pairwise distinct
    provided the log started so, no two key presses share label and
    timestamp, and no key press repeats a file name already logged. *)
Theorem log_invariant w evs :
  rows_have_files w ->
  rows_have_files (run w evs) ∧
  (names_unique w.2 ->
   NoDup (key_stamps evs) ->
   (∀ stamp, stamp ∈ key_stamps evs ->
             datetime_ok stamp.2 ∧
             wav_file (row_of stamp) ∉ wav_file <$> metadata w.2) ->
   names_unique (run w evs).2).
Proof.
  intros Hrows.
  destruct (run_log w evs) as (Hkeep & Hdir & stamps & Hsub & Hlog & Hfiles).
  split.
  - intros row Hin. rewrite Hlog in Hin. rewrite Hdir.
    apply elem_of_app in Hin as [Hold|Hnew].
    + apply Hkeep. by apply Hrows.
    + apply list_elem_of_fmap in Hnew as (stamp & -> & Hstamp). by apply Hfiles.
  - intros Hunique Hstamps Hfresh. unfold names_unique in *.
    rewrite Hlog, fmap_app. apply NoDup_app. split; [done|]. split.
    + intros name Hold Hnew.
      apply list_elem_of_fmap in Hnew as (row & -> & Hrow).
      apply list_elem_of_fmap in Hrow as (stamp & -> & Hstamp).
      pose proof (elem_of_sublist _ _ _ Hstamp Hsub) as Hin.
      by destruct (Hfresh stamp Hin) as [_ Hnot].
    + rewrite <- list_fmap_compose. apply NoDup_fmap_2_strong.
      * intros s1 s2 H1 H2 Heq.
        pose proof (elem_of_sublist _ _ _ H1 Hsub) as Hin1.
        pose proof (elem_of_sublist _ _ _ H2 Hsub) as Hin2.
        apply row_of_name_inj; [by apply Hfresh..|done].
      * by eapply sublist_NoDup.
Qed.

Lemma log_invariant_witness :
  let w := (small_app, empty_disk) in
  let evs := [EvKey key_a noon IoOk; EvKey key_space noon IoOk] in
  rows_have_files w ∧ names_unique w.2 ∧ NoDup (key_stamps evs) ∧
  rows_have_files (run w evs) ∧ names_unique (run w evs).2.
Proof.
  intros w evs.
  assert (H1 : rows_have_files w).
  { intros row Hin. by apply elem_of_nil in Hin. }
  assert (H2 : names_unique w.2) by apply NoDup_nil_2.
  assert (H3 : NoDup (key_stamps evs)).
  { apply NoDup_cons. split; [|apply NoDup_singleton].
    intros Hin%list_elem_of_singleton. discriminate Hin. }
  assert (H4 : ∀ stamp, stamp ∈ key_stamps evs ->
                 datetime_ok stamp.2 ∧
                 wav_file (row_of stamp) ∉ wav_file <$> metadata w.2).
  { intros stamp Hin. split.
    - apply elem_of_cons in Hin as [->|Hin];
        [|apply list_elem_of_singleton in Hin as ->];
        unfold datetime_ok; cbn; lia.
    - apply not_elem_of_nil. }
  destruct (log_invariant w evs H1) as [Hfiles Hnames].
  split; [exact H1|]. split; [exact H2|]. split; [exact H3|].
  split; [exact Hfiles|exact (Hnames H2 H3 H4)].
Defined.

(** ** Peak normalisation in binary32 arithmetic *)

Lemma digits2_size m : digits2_pos m = Pos.size m.
Proof. induction m as [m IH|m IH|]; simpl; by rewrite ?IH. Qed.

Lemma digits2_upper m : Zpos m < 2 ^ Zpos (digits2_pos m).
Proof.
  rewrite digits2_size. pose proof (Pos.size_gt m) as H.
  rewrite <- Pos2Z.inj_pow. lia.
Qed.

Lemma digits2_lower m : 2 ^ (Zpos (digits2_pos m) - 1) <= Zpos m.
Proof.
  rewrite digits2_size. pose proof (Pos.size_le m) as H.
  assert (2 ^ Zpos (Pos.size m) <= 2 * Zpos m) as H'.
  { rewrite <- Pos2Z.inj_pow. lia. }
  replace (Zpos (Pos.size m)) with (Z.succ (Zpos (Pos.size m) - 1)) in H' by lia.
  rewrite Z.pow_succ_r in H' by lia. lia.
Qed.

Lemma Zdigits2_nonneg m : 0 <= Zdigits2 m.
Proof. by destruct m. Qed.

Lemma Zdigits2_upper m : 0 <= m -> m < 2 ^ Zdigits2 m.
Proof.
  intros Hm. destruct m as [|p|p]; [done| |lia].
  apply digits2_upper.
Qed.

Lemma Zdigits2_lower m : 0 < m -> 2 ^ (Zdigits2 m - 1) <= m.
Proof.
  intros Hm. destruct m as [|p|p]; [lia| |lia].
  apply digits2_lower.
Qed.

Lemma Zdigits2_mono m n : 0 <= m <= n -> Zdigits2 m <= Zdigits2 n.
Proof.
  intros [Hm Hmn].
  destruct (Z.eq_dec m 0) as [->|Hne]; [apply Zdigits2_nonneg|].
  pose proof (Zdigits2_lower m ltac:(lia)) as Hl.
  pose proof (Zdigits2_upper n ltac:(lia)) as Hu.
  destruct (Z.le_gt_cases (Zdigits2 m) (Zdigits2 n)) as [?|Hgt]; [done|].
  assert (2 ^ Zdigits2 n <= 2 ^ (Zdigits2 m - 1)).
  { apply Z.pow_le_mono_r; [lia|]. lia. }
  lia.
Qed.

Lemma iter_pos_steps {A} (f : A -> A) (P : Z -> A -> Prop) :
  (forall k y, 0 <= k -> P k y -> P (k + 1) (f y)) ->
  forall p k x, 0 <= k -> P k x -> P (k + Zpos p) (iter_pos f p x).
Proof.
  intros Hstep. induction p as [p IH|p IH|]; intros k x Hk Hx; cbn [iter_pos].
  - replace (k + Zpos p~1) with (k + 1 + Zpos p + Zpos p) by lia.
    apply IH; [lia|]. apply IH; [lia|]. by apply Hstep.
  - replace (k + Zpos p~0) with (k + Zpos p + Zpos p) by lia.
    apply IH; [lia|]. by apply IH.
  - by apply Hstep.
Qed.

Lemma shr_1_spec m r s :
  0 <= m ->
  shr_1 (Build_shr_record m r s) = Build_shr_record (m / 2) (Z.odd m) (r || s).
Proof.
  intros Hm. destruct m as [|[p|p|]|]; cbn [shr_1]; try lia; try done.
  - f_equal. apply (Z.div_unique _ _ _ 1); lia.
  - f_equal. apply (Z.div_unique _ _ _ 0); lia.
Qed.

(** Shifting right by [p] binary places keeps the quotient, and keeps the
    location exact when nothing is shifted out. *)
Lemma shr_iter m r s p :
  0 <= m ->
  let mrs := iter_pos shr_1 p (Build_shr_record m r s) in
  shr_m mrs = m / 2 ^ Zpos p ∧
  (m mod 2 ^ Zpos p = 0 -> r = false -> s = false ->
   loc_of_shr_record mrs = loc_Exact).
Proof.
  intros Hm mrs.
  pose (P := fun (k : Z) (x : shr_record) =>
    shr_m x = m / 2 ^ k ∧
    (m mod 2 ^ k = 0 -> r = false -> s = false ->
     shr_r x = false ∧ shr_s x = false)).
  assert (HP : P (0 + Zpos p) mrs).
  { apply iter_pos_steps; [|done|].
    - intros k [mk rk sk] Hk [Hmk Hex]. cbn [shr_m shr_r shr_s] in *.
      assert (0 <= mk) by (subst mk; apply Z.div_pos; lia).
      rewrite shr_1_spec by done. unfold P. cbn [shr_m shr_r shr_s].
      assert (H2k : 0 < 2 ^ k) by lia.
      rewrite Z.pow_add_r by lia. change (2 ^ 1) with 2. split.
      + subst mk. rewrite Z.div_div by lia. done.
      + intros Hmod Hr Hs.
        assert (Hmodk : m mod 2 ^ k = 0).
        { rewrite Z.rem_mul_r in Hmod by lia.
          pose proof (Z.mod_pos_bound m (2 ^ k) H2k).
          pose proof (Z.mod_pos_bound (m / 2 ^ k) 2 ltac:(lia)). nia. }
        destruct (Hex Hmodk Hr Hs) as [-> ->]. split; [|done].
        rewrite Z.rem_mul_r in Hmod by lia.
        rewrite Hmodk in Hmod. rewrite <- Hmk in Hmod.
        rewrite <- Z.negb_even. apply negb_false_iff.
        apply Zeven_bool_iff, Zeven_ex_iff. exists (mk / 2).
        pose proof (Z.div_mod mk 2 ltac:(lia)). nia.
    - unfold P. cbn [shr_m shr_r shr_s]. change (2 ^ 0) with 1.
      rewrite Z.div_1_r. split; [done|]. intros _ -> ->. done. }
  change (0 + Zpos p) with (Zpos p) in HP. destruct HP as [Hq Hex].
  split; [done|]. intros Hmod Hr Hs. destruct (Hex Hmod Hr Hs) as [Hr' Hs'].
  destruct mrs as [m' r' s']. cbn in *. by subst.
Qed.

Lemma round_nearest_even_bounds m l :
  m <= round_nearest_even m l <= m + 1.
Proof.
  destruct l as [|[]]; cbn [round_nearest_even]; try lia.
  destruct (Z.even m); lia.
Qed.

Lemma fexp32 e : fexp F32.prec F32.emax e = Z.max (e - 24) (-149).
Proof. reflexivity. Qed.

Lemma loc_of_record_of_loc m l :
  loc_of_shr_record (shr_record_of_loc m l) = l ∧
  shr_m (shr_record_of_loc m l) = m.
Proof. by destruct l as [|[]]. Qed.

(** [shr_fexp] brings the exponent up to the canonical one, dividing the
    mantissa accordingly. *)
Lemma shr_fexp_spec mx ex lx :
  0 <= mx ->
  let e := Z.max ex (fexp F32.prec F32.emax (Zdigits2 mx + ex)) in
  let mrs := fst (shr_fexp F32.prec F32.emax mx ex lx) in
  snd (shr_fexp F32.prec F32.emax mx ex lx) = e ∧
  shr_m mrs = mx / 2 ^ (e - ex) ∧
  (lx = loc_Exact -> mx mod 2 ^ (e - ex) = 0 ->
   loc_of_shr_record mrs = loc_Exact).
Proof.
  intros Hmx e mrs. subst e mrs. unfold shr_fexp, shr.
  set (f := fexp _ _ _).
  destruct (loc_of_record_of_loc mx lx) as [Hloc Hm].
  destruct (f - ex) as [|p|p] eqn:Hn; cbn [fst snd].
  - replace (Z.max ex f) with ex by lia. rewrite Z.sub_diag.
    change (2 ^ 0) with 1. rewrite Z.div_1_r. split; [done|]. split; [done|].
    intros -> _. done.
  - replace (Z.max ex f) with (ex + Zpos p) by lia.
    replace (ex + Zpos p - ex) with (Zpos p) by lia.
    split; [done|].
    destruct (shr_record_of_loc mx lx) as [m0 r0 s0] eqn:Hrec.
    cbn [shr_m] in Hm. subst m0.
    destruct (shr_iter mx r0 s0 p Hmx) as [Hq Hex]. split; [done|].
    intros -> Hmod. cbn in Hrec. injection Hrec as <- <-. by apply Hex.
  - replace (Z.max ex f) with ex by lia. rewrite Z.sub_diag.
    change (2 ^ 0) with 1. rewrite Z.div_1_r. split; [done|]. split; [done|].
    intros -> _. done.
Qed.

(** Rounding cannot pass a bound that is a multiple of the unit in the
    last place: if the exact value is at most [Tn * 2 ^ E], where [E] is
    the exponent the mantissa is brought to, so is the rounded result. *)
Lemma round_aux_bounded s mx ex lx Tn :
  0 <= mx ->
  let E := Z.max ex (fexp F32.prec F32.emax (Zdigits2 mx + ex)) in
  mx <= Tn * 2 ^ (E - ex) ->
  (lx <> loc_Exact -> mx < Tn * 2 ^ (E - ex)) ->
  Z.max E (fexp F32.prec F32.emax (Zdigits2 Tn + E)) <= 104 ->
  let r := binary_round_aux F32.prec F32.emax s mx ex lx in
  r = S754_zero s ∨
  ∃ m e, r = S754_finite s m e ∧ E <= e ∧ Zpos m * 2 ^ (e - E) <= Tn.
Proof.
  intros Hmx E Hle Hlt Hover r. subst r. unfold binary_round_aux.
  pose proof (shr_fexp_spec mx ex lx Hmx) as Hspec.
  cbv zeta in Hspec. fold E in Hspec. destruct Hspec as (He & Hm & Hexact).
  destruct (shr_fexp F32.prec F32.emax mx ex lx) as [mrs' e'].
  cbn [fst snd] in He, Hm, Hexact. rewrite He. clear He e'.
  set (m1 := round_nearest_even (shr_m mrs') (loc_of_shr_record mrs')).
  assert (H2 : 0 < 2 ^ (E - ex)) by (apply Z.pow_pos_nonneg; lia).
  assert (Hm1 : 0 <= m1 <= Tn).
  { pose proof (round_nearest_even_bounds (shr_m mrs')
                  (loc_of_shr_record mrs')) as Hb. fold m1 in Hb.
    assert (0 <= shr_m mrs') by (rewrite Hm; apply Z.div_pos; lia).
    split; [lia|].
    assert (shr_m mrs' <= Tn).
    { rewrite Hm. apply Z.div_le_upper_bound; lia. }
    destruct (Z.eq_dec (shr_m mrs') Tn) as [Heq|Hne]; [|lia].
    assert (Hall : mx = Tn * 2 ^ (E - ex)).
    { pose proof (Z.mul_div_le mx (2 ^ (E - ex)) H2) as Hd.
      rewrite <- Hm in Hd. nia. }
    destruct lx as [|c]; [|exfalso; assert (mx < Tn * 2 ^ (E - ex))
                                     by (by apply Hlt); lia].
    subst m1. rewrite Hexact; [cbn [round_nearest_even]; lia|done|].
    rewrite Hall. apply Z.mod_mul. lia. }
  pose proof (shr_fexp_spec m1 E loc_Exact (proj1 Hm1)) as Hspec.
  cbv zeta in Hspec. destruct Hspec as (He2 & Hm2 & _).
  destruct (shr_fexp F32.prec F32.emax m1 E loc_Exact) as [mrs'' e''].
  cbn [fst snd] in He2, Hm2. rewrite <- He2 in Hm2.
  assert (He'' : E <= e'' <= 104).
  { pose proof (Zdigits2_mono m1 Tn Hm1). rewrite fexp32 in *. lia. }
  assert (H22 : 0 < 2 ^ (e'' - E)) by (apply Z.pow_pos_nonneg; lia).
  destruct (shr_m mrs'') as [|m|m] eqn:Hres; [by left| |].
  - right. exists m, e''.
    destruct (Z.leb_spec e'' (F32.emax - F32.prec)) as [_|Hbad];
      [|unfold F32.emax, F32.prec in Hbad; lia].
    split; [done|]. split; [lia|].
    pose proof (Z.mul_div_le m1 (2 ^ (e'' - E)) H22) as Hd.
    rewrite <- Hm2 in Hd. lia.
  - exfalso. assert (0 <= m1 / 2 ^ (e'' - E)) by (apply Z.div_pos; lia). lia.
Qed.

Lemma pow2_double_le a b : 0 <= a < b -> 2 * 2 ^ a <= 2 ^ b.
Proof.
  intros [Ha Hab]. rewrite <- Z.pow_succ_r by done.
  apply Z.pow_le_mono_r; lia.
Qed.

Lemma bounded_spec m e :
  bounded F32.prec F32.emax m e = true ->
  -149 <= e <= 104 ∧ Zpos m < 2 ^ 24 ∧ (-149 < e -> 2 ^ 23 <= Zpos m).
Proof.
  unfold bounded, canonical_mantissa. intros [Hc He]%andb_true_iff.
  apply Z.eqb_eq in Hc. apply Z.leb_le in He. rewrite fexp32 in Hc.
  unfold F32.emax, F32.prec in He.
  pose proof (digits2_upper m) as Hu. pose proof (digits2_lower m) as Hl.
  split; [lia|]. split.
  - assert (2 ^ Zpos (digits2_pos m) <= 2 ^ 24)
      by (apply Z.pow_le_mono_r; lia). lia.
  - intros Hsub. replace (Zpos (digits2_pos m)) with 24 in Hl by lia. exact Hl.
Qed.

Lemma magnitude_pos m e s :
  bounded F32.prec F32.emax m e = true -> 0 < magnitude (S754_finite s m e).
Proof.
  intros Hb%bounded_spec. cbn [magnitude].
  assert (0 < 2 ^ (e + 149)) by (apply Z.pow_pos_nonneg; lia). lia.
Qed.

(** On finite non-negative values [<] of binary32 is [<] of magnitudes. *)
Lemma ltb_magnitude x y :
  nonneg_finite x -> nonneg_finite y ->
  F32.ltb x y = true ↔ magnitude x < magnitude y.
Proof.
  intros [->|(m1 & e1 & -> & Hb1)] [->|(m2 & e2 & -> & Hb2)].
  - done.
  - pose proof (magnitude_pos m2 e2 false Hb2). cbn [magnitude] in *. done.
  - pose proof (magnitude_pos m1 e1 false Hb1). cbn [magnitude] in *.
    split; [done|lia].
  - unfold F32.ltb, SFltb. cbn [SFcompare magnitude].
    apply bounded_spec in Hb1 as (He1 & Hm1 & Hn1).
    apply bounded_spec in Hb2 as (He2 & Hm2 & Hn2).
    destruct (Z.compare_spec e1 e2) as [->|Hlt|Hgt].
    + change (Pos.compare_cont Eq m1 m2) with (Pos.compare m1 m2).
      assert (0 < 2 ^ (e2 + 149)) by (apply Z.pow_pos_nonneg; lia).
      destruct (Pos.compare_spec m1 m2) as [->|?|?]; split; try done; nia.
    + split; [intros _|done].
      assert (2 * 2 ^ (e1 + 149) <= 2 ^ (e2 + 149))
        by (apply pow2_double_le; lia).
      assert (2 ^ 23 <= Zpos m2) by (apply Hn2; lia).
      assert (0 < 2 ^ (e1 + 149)) by (apply Z.pow_pos_nonneg; lia).
      nia.
    + split; [done|intros Hcontra; exfalso].
      assert (2 * 2 ^ (e2 + 149) <= 2 ^ (e1 + 149))
        by (apply pow2_double_le; lia).
      assert (2 ^ 23 <= Zpos m1) by (apply Hn1; lia).
      assert (0 < 2 ^ (e2 + 149)) by (apply Z.pow_pos_nonneg; lia).
      nia.
Qed.

Lemma maximum_nonneg x y :
  nonneg_finite x -> nonneg_finite y ->
  nonneg_finite (F32.maximum x y) ∧
  (F32.maximum x y = x ∨ F32.maximum x y = y) ∧
  magnitude x <= magnitude (F32.maximum x y) ∧
  magnitude y <= magnitude (F32.maximum x y).
Proof.
  intros Hx Hy. pose proof (ltb_magnitude x y Hx Hy) as Hlt.
  assert (F32.maximum x y = if F32.ltb x y then y else x) as ->.
  { destruct Hx as [->|(? & ? & -> & _)], Hy as [->|(? & ? & -> & _)]; done. }
  destruct (F32.ltb x y).
  - split; [done|]. split; [by right|]. lia.
  - split; [done|]. split; [by left|].
    assert (¬ magnitude x < magnitude y) by (intros H; by apply Hlt in H).
    lia.
Qed.

(** [np.max] of finite non-negative values is one of them and bounds them
    all. *)
Lemma max_nonneg a peak :
  Forall nonneg_finite a -> F32.max a = Some peak ->
  nonneg_finite peak ∧ peak ∈ a ∧
  Forall (fun y => magnitude y <= magnitude peak) a.
Proof.
  destruct a as [|x rest]; [done|]. cbn [F32.max]. intros Hall [= <-].
  apply Forall_cons in Hall as [Hx Hrest].
  revert x Hx. induction rest as [|y rest IH]; intros x Hx; cbn [fold_left].
  - split; [done|]. split; [constructor|]. by constructor.
  - apply Forall_cons in Hrest as [Hy Hrest].
    destruct (maximum_nonneg x y Hx Hy) as (Hm & Hsel & Hxle & Hyle).
    destruct (IH Hrest (F32.maximum x y) Hm) as (Hpeak & Hin & Hbound).
    apply Forall_cons in Hbound as [Hmle Hbound].
    split; [done|]. split.
    + apply elem_of_cons in Hin as [Heq|Hin].
      * rewrite Heq. destruct Hsel as [->| ->]; [constructor|].
        constructor. constructor.
      * constructor. constructor. done.
    + constructor; [lia|]. constructor; [lia|done].
Qed.

Lemma Zdigits2_pow2 k : 0 <= k -> Zdigits2 (2 ^ k) <= k + 1.
Proof.
  intros Hk. assert (0 < 2 ^ k) as Hpos by (apply Z.pow_pos_nonneg; lia).
  pose proof (Zdigits2_lower (2 ^ k) Hpos) as Hl.
  pose proof (Zdigits2_nonneg (2 ^ k)).
  destruct (Z.le_gt_cases (Zdigits2 (2 ^ k)) (k + 1)) as [?|Hgt]; [done|].
  assert (2 * 2 ^ k <= 2 ^ (Zdigits2 (2 ^ k) - 1))
    by (apply pow2_double_le; lia).
  lia.
Qed.

Lemma Zdigits2_le_pow2 m k : 0 <= m <= 2 ^ k -> 0 <= k -> Zdigits2 m <= k + 1.
Proof.
  intros Hm Hk. pose proof (Zdigits2_mono m (2 ^ k) Hm).
  pose proof (Zdigits2_pow2 k Hk). lia.
Qed.

Lemma new_location_exact nb k :
  new_location nb k <> loc_Exact -> k <> 0.
Proof.
  unfold new_location, new_location_even, new_location_odd.
  intros H ->. by destruct (Z.even nb).
Qed.

Lemma div_eucl_div_mod a b :
  Z.div_eucl a b = (a / b, a mod b).
Proof. unfold Z.div, Z.modulo. by destruct (Z.div_eucl a b). Qed.

(** Dividing by a value of no smaller magnitude gives at most one. *)
Lemma div_at_most_one s m1 e1 m2 e2 :
  bounded F32.prec F32.emax m1 e1 = true ->
  bounded F32.prec F32.emax m2 e2 = true ->
  magnitude (S754_finite s m1 e1) <= magnitude (S754_finite false m2 e2) ->
  at_most_one s (F32.div (S754_finite s m1 e1) (S754_finite false m2 e2)).
Proof.
  intros Hb1 Hb2 Hmag. cbn [magnitude] in Hmag.
  apply bounded_spec in Hb1 as (He1 & Hm1 & _).
  apply bounded_spec in Hb2 as (He2 & Hm2 & _).
  unfold F32.div, SFdiv, SFdiv_core_binary. rewrite xorb_false_r.
  cbn [Zdigits2]. rewrite fexp32.
  set (d1 := Zpos (digits2_pos m1)). set (d2 := Zpos (digits2_pos m2)).
  set (e' := Z.min _ (e1 - e2)). set (sh := e1 - e2 - e').
  pose proof (digits2_lower m1) as Hl1. fold d1 in Hl1.
  pose proof (digits2_upper m2) as Hu2. fold d2 in Hu2.
  assert (P1 : 0 < 2 ^ (e1 + 149)) by (apply Z.pow_pos_nonneg; lia).
  assert (P2 : 0 < 2 ^ (e2 + 149)) by (apply Z.pow_pos_nonneg; lia).
  assert (Hd : d1 + e1 <= d2 + e2).
  { destruct (Z.le_gt_cases (d1 + e1) (d2 + e2)) as [?|Hgt]; [done|exfalso].
    assert (2 ^ (d2 + (e2 + 149)) <= 2 ^ (d1 - 1 + (e1 + 149)))
      by (apply Z.pow_le_mono_r; lia).
    rewrite (Z.pow_add_r 2 d2 (e2 + 149)),
      (Z.pow_add_r 2 (d1 - 1) (e1 + 149)) in H by (subst d1 d2; lia).
    nia. }
  assert (He' : e' <= -24) by (subst e'; lia).
  assert (Hsh : 0 <= sh) by (subst sh e'; lia).
  assert (Hm' : match sh with
                | 0 => Zpos m1
                | Zpos _ => Z.shiftl (Zpos m1) sh
                | Zneg _ => 0
                end = Zpos m1 * 2 ^ sh).
  { destruct sh as [|p|p] eqn:Hs; [lia| |lia].
    by rewrite Z.shiftl_mul_pow2. }
  rewrite Hm', div_eucl_div_mod.
  set (m' := Zpos m1 * 2 ^ sh). set (q := m' / Zpos m2).
  assert (Psh : 0 < 2 ^ sh) by (apply Z.pow_pos_nonneg; lia).
  assert (Pe : 0 < 2 ^ (- e')) by (apply Z.pow_pos_nonneg; lia).
  assert (Hm'le : m' <= 2 ^ (- e') * Zpos m2).
  { assert (2 ^ sh * 2 ^ (e2 + 149) = 2 ^ (e1 + 149) * 2 ^ (- e')) as Hpw.
    { rewrite <- !Z.pow_add_r by lia. f_equal. subst sh. lia. }
    subst m'. nia. }
  assert (Hq0 : 0 <= q) by (subst q m'; apply Z.div_pos; lia).
  assert (Hqle : q <= 2 ^ (- e')).
  { subst q. apply Z.div_le_upper_bound; lia. }
  pose proof (Zdigits2_le_pow2 q (- e') (conj Hq0 Hqle) ltac:(lia)) as Hdq.
  set (E := Z.max e' (fexp F32.prec F32.emax (Zdigits2 q + e'))).
  assert (HE : e' <= E <= -23) by (subst E; rewrite fexp32; lia).
  assert (PE : 0 < 2 ^ (E - e')) by (apply Z.pow_pos_nonneg; lia).
  assert (Hsplit : 2 ^ (- E) * 2 ^ (E - e') = 2 ^ (- e')).
  { rewrite <- Z.pow_add_r by lia. f_equal; lia. }
  destruct (round_aux_bounded s q e' (new_location (Zpos m2) (m' mod Zpos m2))
              (2 ^ (- E)) Hq0) as [Hzero|(m & e & Hfin & Hle & Hval)].
  - fold E. rewrite Hsplit. done.
  - fold E. rewrite Hsplit. intros Hr%new_location_exact.
    pose proof (Z.div_mod m' (Zpos m2) ltac:(lia)) as Hdm.
    pose proof (Z.mod_pos_bound m' (Zpos m2) ltac:(lia)) as Hmb.
    fold q in Hdm. nia.
  - fold E.
    pose proof (Zdigits2_pow2 (- E) ltac:(lia)). rewrite fexp32. lia.
  - by left.
  - right. exists m, e. fold E in Hle, Hval. split; [done|].
    assert (Pee : 0 < 2 ^ (e - E)) by (apply Z.pow_pos_nonneg; lia).
    assert (He0 : e <= 0).
    { destruct (Z.le_gt_cases e 0) as [?|Hgt]; [done|exfalso].
      assert (2 * 2 ^ (- E) <= 2 ^ (e - E)) by (apply pow2_double_le; lia).
      assert (0 < 2 ^ (- E)) by (apply Z.pow_pos_nonneg; lia). nia. }
    split; [done|].
    assert (2 ^ (- E) = 2 ^ (- e) * 2 ^ (e - E)) as Hpw.
    { rewrite <- Z.pow_add_r by lia. f_equal; lia. }
    rewrite Hpw in Hval. nia.
Qed.

Lemma to_int16_small x t :
  IEEE.trunc x = Some t -> -32767 <= t <= 32767 -> F32.to_int16 x = t.
Proof.
  intros Ht Hr. unfold F32.to_int16, F32.to_int32, F32.wrap16. rewrite Ht.
  change (- 2 ^ 31) with (-2147483648). change (2 ^ 31) with 2147483648.
  destruct (Z.leb_spec (-2147483648) t); [|lia].
  destruct (Z.ltb_spec t 2147483648); [|lia].
  cbn [andb]. rewrite Z.mod_small by lia. lia.
Qed.

Lemma of_Z_32767 : F32.of_Z 32767 = S754_finite false 16776704 (-9).
Proof. reflexivity. Qed.

(** A value of magnitude at most one, scaled by 32767, converts to an
    integer between -32767 and 32767 without wrapping. *)
Lemma scaled_in_range s q :
  at_most_one s q ->
  ∃ t, IEEE.trunc (F32.mul q (F32.of_Z 32767)) = Some t ∧
       -32767 <= t <= 32767 ∧
       F32.to_int16 (F32.mul q (F32.of_Z 32767)) = t.
Proof.
  intros Hq. rewrite of_Z_32767.
  assert (Hgoal : ∃ t, IEEE.trunc (F32.mul q (S754_finite false 16776704 (-9)))
                       = Some t ∧ -32767 <= t <= 32767).
  2:{ destruct Hgoal as (t & Ht & Hr). exists t.
      split; [done|]. split; [done|]. by apply to_int16_small. }
  destruct Hq as [->|(m & e & -> & He & Hm)].
  { exists 0. split; [done|lia]. }
  unfold F32.mul, SFmul. rewrite xorb_false_r.
  set (mx := Zpos (m * 16776704)). set (ex := e + -9).
  assert (Pe : 0 < 2 ^ (- e)) by (apply Z.pow_pos_nonneg; lia).
  assert (Hmx : 0 < mx <= 16776704 * 2 ^ (- e)) by (subst mx; lia).
  assert (Hdx : Zdigits2 mx <= 24 - e).
  { pose proof (Zdigits2_lower mx ltac:(lia)) as Hl.
    pose proof (Zdigits2_nonneg mx).
    destruct (Z.le_gt_cases (Zdigits2 mx) (24 - e)) as [?|Hgt]; [done|exfalso].
    assert (2 ^ (24 + - e) <= 2 ^ (Zdigits2 mx - 1))
      by (apply Z.pow_le_mono_r; lia).
    rewrite (Z.pow_add_r 2 24 (- e)) in H0 by lia.
    change (2 ^ 24) with 16777216 in H0. lia. }
  set (E := Z.max ex (fexp F32.prec F32.emax (Zdigits2 mx + ex))).
  assert (HE : ex <= E <= -9) by (subst E ex; rewrite fexp32; lia).
  assert (PE : 0 < 2 ^ (- E)) by (apply Z.pow_pos_nonneg; lia).
  assert (Hsplit : 2 ^ (- E) * 2 ^ (E - ex) = 512 * 2 ^ (- e)).
  { rewrite <- Z.pow_add_r by lia.
    replace (- E + (E - ex)) with (9 + - e) by (subst ex; lia).
    rewrite Z.pow_add_r by lia. done. }
  destruct (round_aux_bounded s mx ex loc_Exact (32767 * 2 ^ (- E))
              ltac:(lia)) as [Hzero|(m' & e' & Hfin & Hle & Hval)].
  - fold E. rewrite <- Z.mul_assoc, Hsplit. lia.
  - done.
  - fold E. rewrite fexp32.
    assert (Zdigits2 (32767 * 2 ^ (- E)) <= 15 - E); [|lia].
    assert (32767 * 2 ^ (- E) <= 2 ^ (15 + - E)).
    { rewrite Z.pow_add_r by lia. change (2 ^ 15) with 32768. lia. }
    pose proof (Zdigits2_le_pow2 (32767 * 2 ^ (- E)) (15 + - E)
                  ltac:(lia) ltac:(lia)).
    pose proof (Zdigits2_lower (32767 * 2 ^ (- E)) ltac:(lia)) as Hl.
    destruct (Z.le_gt_cases (Zdigits2 (32767 * 2 ^ (- E))) (15 - E))
      as [?|Hgt]; [done|exfalso].
    replace (Zdigits2 (32767 * 2 ^ (- E))) with (15 + - E + 1) in Hl by lia.
    replace (15 + - E + 1 - 1) with (15 + - E) in Hl by lia.
    rewrite Z.pow_add_r in Hl by lia. change (2 ^ 15) with 32768 in Hl. lia.
  - rewrite Hzero. exists 0. split; [done|lia].
  - rewrite Hfin. fold E in Hle, Hval. cbn [IEEE.trunc].
    assert (Pee : 0 < 2 ^ (e' - E)) by (apply Z.pow_pos_nonneg; lia).
    assert (Hmag : 0 <= (if 0 <=? e' then Z.shiftl (Zpos m') e'
                         else Zpos m' / 2 ^ (- e')) <= 32767).
    { destruct (Z.leb_spec 0 e') as [Hpos|Hneg].
      - rewrite Z.shiftl_mul_pow2 by done.
        assert (0 < 2 ^ e') by (apply Z.pow_pos_nonneg; lia).
        assert (2 ^ (e' - E) = 2 ^ e' * 2 ^ (- E)) as Hpw.
        { rewrite <- Z.pow_add_r by lia. f_equal; lia. }
        rewrite Hpw in Hval. nia.
      - assert (0 < 2 ^ (- e')) by (apply Z.pow_pos_nonneg; lia).
        assert (2 ^ (- E) = 2 ^ (- e') * 2 ^ (e' - E)) as Hpw.
        { rewrite <- Z.pow_add_r by lia. f_equal; lia. }
        rewrite Hpw in Hval. split; [apply Z.div_pos; lia|].
        apply Z.div_le_upper_bound; [lia|]. nia. }
    eexists. split; [done|]. destruct s; cbn [cond_Zopp]; lia.
Qed.

(** The quotient of a value by its own magnitude is exactly one, with the
    sign of the value. *)
Lemma div_self s m e :
  F32.div (S754_finite s m e) (S754_finite false m e)
  = S754_finite s 8388608 (-23).
Proof.
  unfold F32.div, SFdiv, SFdiv_core_binary. rewrite xorb_false_r.
  rewrite !Z.sub_diag. cbn [fexp F32.prec F32.emax]. 
  change (Z.min (fexp F32.prec F32.emax 0) 0) with (-24).
  change (0 - -24) with 24.
  rewrite Z.shiftl_mul_pow2 by lia. rewrite div_eucl_div_mod.
  rewrite Z.mul_comm, Z.div_mul, Z.mod_mul by lia.
  assert (new_location (Zpos m) 0 = loc_Exact) as ->.
  { unfold new_location. by destruct (Z.even (Zpos m)). }
  by destruct s.
Qed.

Lemma scaled_one s :
  F32.to_int16 (F32.mul (S754_finite s 8388608 (-23)) (F32.of_Z 32767))
  = if s then -32767 else 32767.
Proof. by destruct s. Qed.

Lemma finite_cases x :
  F32.finite x = true ->
  (∃ s, x = S754_zero s) ∨
  ∃ s m e, x = S754_finite s m e ∧ bounded F32.prec F32.emax m e = true.
Proof.
  unfold F32.finite, F32.valid. destruct x as [s|s| |s m e]; try done.
  - intros _. left. by exists s.
  - cbn. intros Hb. right. by exists s, m, e.
Qed.

Lemma abs_nonneg x :
  F32.finite x = true ->
  nonneg_finite (F32.abs x) ∧ magnitude (F32.abs x) = magnitude x.
Proof.
  intros [[s ->]|(s & m & e & -> & Hb)]%finite_cases.
  - split; [by left|done].
  - split; [right; by exists m, e|done].
Qed.

Lemma magnitude_zero x :
  F32.finite x = true -> magnitude x <= 0 -> is_zero x.
Proof.
  intros [[s ->]|(s & m & e & -> & Hb)]%finite_cases Hmag; [done|].
  pose proof (magnitude_pos m e s Hb). lia.
Qed.

(** One sample of a segment whose peak is positive. *)
Lemma scale_sample x mp ep :
  F32.finite x = true ->
  bounded F32.prec F32.emax mp ep = true ->
  magnitude x <= magnitude (S754_finite false mp ep) ->
  let y := F32.mul (F32.div x (S754_finite false mp ep)) (F32.of_Z 32767) in
  ∃ t, IEEE.trunc y = Some t ∧ -32767 <= t <= 32767 ∧ F32.to_int16 y = t.
Proof.
  intros [[s ->]|(s & m & e & -> & Hb)]%finite_cases Hp Hmag y; subst y.
  - apply (scaled_in_range (xorb s false)). by left.
  - apply (scaled_in_range s). by apply div_at_most_one.
Qed.

Lemma max_abs_bound ints M :
  0 <= M -> Forall (fun z => - M <= z <= M) ints -> max_abs ints <= M.
Proof.
  intros HM. induction 1 as [|z ints Hz _ IH]; cbn [max_abs foldr]; [done|].
  fold (max_abs ints). lia.
Qed.

Lemma max_abs_reached ints z : z ∈ ints -> Z.abs z <= max_abs ints.
Proof.
  induction 1 as [z ints|z z' ints _ IH]; cbn [max_abs foldr];
    fold (max_abs ints); lia.
Qed.

Lemma peak_spec segment peak :
  Forall (fun x => F32.finite x = true) segment ->
  F32.max (map F32.abs segment) = Some peak ->
  nonneg_finite peak ∧
  (∃ x, x ∈ segment ∧ F32.abs x = peak) ∧
  Forall (fun x => magnitude x <= magnitude peak) segment.
Proof.
  intros Hfin Hmax.
  destruct (max_nonneg (map F32.abs segment) peak) as (Hpeak & Hin & Hle).
  - change (map F32.abs segment) with (F32.abs <$> segment).
    apply Forall_fmap. eapply Forall_impl; [exact Hfin|].
    intros x Hx. by apply abs_nonneg.
  - done.
  - split; [done|]. split.
    + change (map F32.abs segment) with (F32.abs <$> segment) in Hin.
      apply list_elem_of_fmap in Hin as (x & -> & Hx). eauto.
    + change (map F32.abs segment) with (F32.abs <$> segment) in Hle.
      rewrite Forall_forall in Hfin. rewrite Forall_forall in Hle.
      apply Forall_forall. intros x Hx.
      destruct (abs_nonneg x (Hfin x Hx)) as [_ <-]. apply Hle.
      apply list_elem_of_fmap. eauto.
Qed.

Lemma positive_peak peak :
  nonneg_finite peak ->
  F32.ltb F32.zero peak = true ->
  ∃ mp ep, peak = S754_finite false mp ep
           ∧ bounded F32.prec F32.emax mp ep = true.
Proof. intros [->|(mp & ep & -> & Hb)] Hlt; [done|eauto]. Qed.

Lemma zero_peak peak :
  nonneg_finite peak -> F32.ltb F32.zero peak = false -> magnitude peak = 0.
Proof. intros [->|(mp & ep & -> & Hb)] Hlt; done. Qed.

Lemma to_int16_zero x : is_zero x -> F32.to_int16 x = 0.
Proof. by destruct x. Qed.

(** Both branches of [normalize] on a non-empty segment of finite
    samples. *)
Lemma normalize_finite segment :
  Forall (fun x => F32.finite x = true) segment -> segment ≠ [] ->
  ∃ peak, F32.max (map F32.abs segment) = Some peak ∧
    ((F32.ltb F32.zero peak = false ∧ Forall is_zero segment ∧
      normalize segment = Some (replicate (length segment) 0))
     ∨
     (F32.ltb F32.zero peak = true ∧
      normalize segment
      = Some (map (fun x => F32.to_int16
                              (F32.mul (F32.div x peak) (F32.of_Z 32767)))
                  segment) ∧
      Forall (fun x =>
                let y := F32.mul (F32.div x peak) (F32.of_Z 32767) in
                ∃ t, IEEE.trunc y = Some t ∧ -32767 <= t <= 32767
                     ∧ F32.to_int16 y = t) segment ∧
      ∃ x, x ∈ segment ∧
           Z.abs (F32.to_int16 (F32.mul (F32.div x peak) (F32.of_Z 32767)))
           = 32767)).
Proof.
  intros Hfin Hne.
  destruct (F32.max (map F32.abs segment)) as [peak|] eqn:Hmax.
  2:{ destruct segment; [done|discriminate Hmax]. }
  exists peak. split; [done|].
  destruct (peak_spec segment peak Hfin Hmax) as (Hpeak & (xp & Hxp & Habs) & Hle).
  unfold normalize. rewrite Hmax.
  destruct (F32.ltb F32.zero peak) eqn:Hlt; [right|left].
  - destruct (positive_peak peak Hpeak Hlt) as (mp & ep & -> & Hb).
    split; [done|]. split; [done|]. split.
    + rewrite Forall_forall in Hfin, Hle. apply Forall_forall. intros x Hx.
      apply scale_sample; [by apply Hfin|done|by apply Hle].
    + exists xp. split; [done|].
      destruct xp as [| | |s m e]; try discriminate Habs.
      cbn [F32.abs SFabs] in Habs. injection Habs as -> ->.
      rewrite div_self, scaled_one. by destruct s.
  - split; [done|].
    assert (Hzero : Forall is_zero segment).
    { pose proof (zero_peak peak Hpeak Hlt) as H0.
      rewrite Forall_forall in Hfin, Hle. apply Forall_forall. intros x Hx.
      apply magnitude_zero; [by apply Hfin|]. rewrite <- H0. by apply Hle. }
    split; [done|]. f_equal.
    clear -Hzero. induction Hzero as [|x l Hx _ IH]; [done|].
    cbn [map length replicate]. by rewrite IH, to_int16_zero.
Qed.

(** C10. For a segment of finite samples the conversion of
    [save_key_audio] yields only values between -32767 and 32767, and no
    value wraps: when the peak is positive each output is the sample
    divided by the peak and multiplied by 32767, truncated, and when the
    peak is zero the output is all zero. [np.max] raises on the empty
    segment, and only there. *)
Theorem int16_conversion_in_range segment :
  Forall (fun x => F32.finite x = true) segment ->
  (segment = [] ∧ normalize segment = None) ∨
  ∃ peak ints,
    F32.max (map F32.abs segment) = Some peak ∧
    normalize segment = Some ints ∧
    Forall (fun z => -32767 <= z <= 32767) ints ∧
    (F32.ltb F32.zero peak = true ->
     Forall2 (fun x z =>
                let y := F32.mul (F32.div x peak) (F32.of_Z 32767) in
                z = F32.to_int16 y ∧ IEEE.trunc y = Some z) segment ints) ∧
    (F32.ltb F32.zero peak = false -> ints = replicate (length segment) 0).
Proof.
  intros Hfin.
  destruct (decide (segment = [])) as [->|Hne]; [by left|right].
  destruct (normalize_finite segment Hfin Hne)
    as (peak & Hmax & [(Hlt & Hzero & Hnorm)|(Hlt & Hnorm & Hrange & _)]).
  - exists peak, (replicate (length segment) 0).
    split; [done|]. split; [done|]. split.
    + apply Forall_replicate. lia.
    + split; [by rewrite Hlt|done].
  - exists peak. eexists. split; [done|]. split; [exact Hnorm|]. split.
    + change (map ?f segment) with (f <$> segment). apply Forall_fmap.
      eapply Forall_impl; [exact Hrange|]. cbn. intros x (t & _ & Hr & ->).
      done.
    + split; [|by rewrite Hlt]. intros _.
      change (map ?f segment) with (f <$> segment).
      apply Forall2_fmap_r, Forall_Forall2_diag.
      eapply Forall_impl; [exact Hrange|]. cbn. intros x (t & Ht & _ & ->).
      done.
Qed.

(** C4. For a non-empty segment of finite samples: if every sample is
    zero the encoded clip is all zero, and otherwise the largest absolute
    value of the encoded clip is exactly 32767. *)
Theorem peak_normalization segment :
  Forall (fun x => F32.finite x = true) segment -> segment ≠ [] ->
  (Forall is_zero segment ->
   normalize segment = Some (replicate (length segment) 0)) ∧
  (¬ Forall is_zero segment ->
   ∃ ints, normalize segment = Some ints ∧ max_abs ints = 32767).
Proof.
  intros Hfin Hne.
  destruct (normalize_finite segment Hfin Hne)
    as (peak & Hmax & [(Hlt & Hzero & Hnorm)|(Hlt & Hnorm & Hrange & Hpeak)]).
  - split; [done|]. intros Hnz. exfalso. by apply Hnz.
  - split.
    + intros Hzero. exfalso.
      destruct (peak_spec segment peak Hfin Hmax) as (_ & (x & Hx & Habs) & _).
      rewrite Forall_forall in Hzero. specialize (Hzero x Hx).
      destruct x; try done. cbn in Habs. by subst peak.
    + intros _. eexists. split; [exact Hnorm|].
      apply Z.le_antisymm.
      * apply max_abs_bound; [lia|].
        change (map ?f segment) with (f <$> segment). apply Forall_fmap.
        eapply Forall_impl; [exact Hrange|]. cbn. intros x (t & _ & Hr & ->).
        done.
      * destruct Hpeak as (x & Hx & Habs).
        etrans; [|apply (max_abs_reached _ _ (list_elem_of_fmap_2 _ _ _ Hx))].
        cbn beta. lia.
Qed.


Lemma int16_conversion_in_range_witness :
  let segment := [half; minus_quarter; F32.zero] in
  Forall (fun x => F32.finite x = true) segment ∧
  ∃ ints, normalize segment = Some ints ∧
          Forall (fun z => -32767 <= z <= 32767) ints.
Proof.
  intros segment.
  assert (H1 : Forall (fun x => F32.finite x = true) segment)
    by (repeat constructor).
  destruct (int16_conversion_in_range segment H1)
    as [[Hnil _]|(peak & ints & _ & Hnorm & Hrange & _)];
    [discriminate Hnil|].
  split; [exact H1|].
  exists ints. split; [exact Hnorm|exact Hrange].
Defined.

Lemma peak_normalization_witness :
  let segment := [half; minus_quarter; F32.zero] in
  Forall (fun x => F32.finite x = true) segment ∧ segment ≠ [] ∧
  ¬ Forall is_zero segment ∧
  ∃ ints, normalize segment = Some ints ∧ max_abs ints = 32767.
Proof.
  intros segment.
  assert (H1 : Forall (fun x => F32.finite x = true) segment)
    by (repeat constructor).
  assert (H2 : segment ≠ []) by discriminate.
  assert (H3 : ¬ Forall is_zero segment).
  { intros Hz. apply Forall_cons in Hz as [Hhalf _]. exact Hhalf. }
  split; [exact H1|]. split; [exact H2|]. split; [exact H3|].
  exact (proj2 (peak_normalization segment H1 H2) H3).
Defined.

(** ** More on the callback *)

Lemma roll_rotate {A} (a : list A) (n : nat) :
  a ≠ [] ->
  Numpy.roll a (- Z.of_nat n) = rotate_left (n mod length a) a.
Proof.
  intros Ha. unfold Numpy.roll, rotate_left. destruct a as [|x a']; [done|].
  rewrite Z.opp_involutive.
  rewrite <- Nat2Z.inj_mod, Nat2Z.id. done.
Qed.

Lemma length_setitem_tail {A} (a : list A) n v a' :
  Numpy.setitem_tail a n v = Some a' -> length a' = length a.
Proof.
  unfold Numpy.setitem_tail.
  assert (Hstart : (Numpy.tail_start (length a) n ≤ length a)%nat).
  { unfold Numpy.tail_start. destruct (Nat.eqb n 0); lia. }
  destruct (Nat.eqb_spec (length v)
              (length a - Numpy.tail_start (length a) n)) as [Heq|Hne].
  - intros [= <-]. rewrite length_app, length_take. lia.
  - destruct v as [|x [|y v]]; try done.
    intros [= <-]. rewrite length_app, length_take, length_replicate. lia.
Qed.

Lemma length_callback st indata :
  length (audio_buffer (fst (callback st indata))) = length (audio_buffer st).
Proof.
  unfold callback. destruct (negb _); [done|].
  destruct (Numpy.setitem_tail _ _ _) as [a|] eqn:Hset; cbn.
  - apply length_setitem_tail in Hset. by rewrite length_roll in Hset.
  - apply length_roll.
Qed.

(** X1. While recording, the callback returns exactly when the block has
    between one frame and as many frames as the buffer holds. On any
    other block the slice assignment raises [ValueError], after [np.roll]
    has already replaced the buffer: the buffer is left rotated by
    [frames] modulo its length, and none of the block is stored. *)
Theorem callback_outcome st indata :
  is_recording st = true -> audio_buffer st ≠ [] ->
  (snd (callback st indata) = Returned
   ↔ block_fits (length (audio_buffer st)) indata) ∧
  (¬ block_fits (length (audio_buffer st)) indata ->
   callback st indata
   = (set_audio_buffer st
        (rotate_left (length indata mod length (audio_buffer st))
                     (audio_buffer st)),
      Raised "ValueError: could not broadcast input array")).
Proof.
  intros Hrec Hne.
  assert (Hpos : (0 < length (audio_buffer st))%nat).
  { destruct (audio_buffer st); [done|simpl; lia]. }
  assert (Hbad : ¬ block_fits (length (audio_buffer st)) indata ->
    callback st indata
    = (set_audio_buffer st
         (rotate_left (length indata mod length (audio_buffer st))
                      (audio_buffer st)),
       Raised "ValueError: could not broadcast input array")).
  { intros Hfit. unfold block_fits in Hfit.
    destruct (decide (length indata = 0)%nat) as [H0|Hn0].
    - destruct indata; [|done]. rewrite callback_empty_block by done.
      cbn [length]. rewrite Nat.Div0.mod_0_l. unfold rotate_left.
      rewrite drop_0, take_0, app_nil_r. by destruct st.
    - rewrite callback_oversized by (done || lia).
      by rewrite roll_rotate. }
  split; [|done]. split.
  - intros Hret. destruct (decide (block_fits (length (audio_buffer st)) indata))
      as [?|Hnot]; [done|]. rewrite (Hbad Hnot) in Hret. done.
  - intros Hfit. by rewrite callback_fits.
Qed.

Lemma callback_outcome_witness :
  is_recording small_app = true ∧ audio_buffer small_app ≠ [] ∧
  (snd (callback small_app [one]) = Returned
   ↔ block_fits (length (audio_buffer small_app)) [one]).
Proof.
  assert (H1 : is_recording small_app = true) by reflexivity.
  assert (H2 : audio_buffer small_app ≠ []) by (vm_compute; discriminate).
  split; [exact H1|]. split; [exact H2|].
  exact (proj1 (callback_outcome small_app [one] H1 H2)).
Defined.

Lemma step_buffer_length w ev :
  length (audio_buffer (step w ev).1) = length (audio_buffer w.1).
Proof.
  destruct w as [st d]. unfold step.
  destruct ev as [duration stream_error hook_error| |indata|k now io].
  - destruct (is_recording st); [done|]. cbn [fst].
    unfold start_recording. destruct duration as [n|]; [|done].
    destruct (n <=? 0); [done|].
    unfold listen_keyboard, record_audio.
    cbn [input_device set_status set_is_recording].
    by destruct hook_error, (input_device st), stream_error.
  - done.
  - destruct (stream_open st); [|done]. apply length_callback.
  - destruct (listener_running st); [|done].
    destruct (on_press_fields st d k now io) as (_ & _ & _ & _ & Hb & _).
    cbn [fst] in *. by rewrite Hb.
Qed.

Lemma run_buffer_length w evs :
  length (audio_buffer (run w evs).1) = length (audio_buffer w.1).
Proof.
  revert w. induction evs as [|ev evs IH]; intros w; [done|].
  change (run w (ev :: evs)) with (run (step w ev) evs).
  by rewrite IH, step_buffer_length.
Qed.

Lemma last_n_last_n {A} (n m : nat) (l : list A) :
  (n ≤ m)%nat -> last_n n (last_n m l) = last_n n l.
Proof.
  intros Hnm. unfold last_n. rewrite length_drop, drop_drop. f_equal. lia.
Qed.

Lemma last_n_app_r {A} (n : nat) (l0 l : list A) :
  (n ≤ length l)%nat -> last_n n (l0 ++ l) = last_n n l.
Proof.
  intros Hn. unfold last_n. rewrite length_app.
  rewrite drop_app_ge by lia. f_equal. lia.
Qed.

Lemma getitem_tail_last_n {A} (a : list A) (n : nat) :
  (0 < n)%nat -> Numpy.getitem_tail a n = last_n n a.
Proof.
  intros Hn. unfold Numpy.getitem_tail, Numpy.tail_start, last_n.
  destruct (Nat.eqb_spec n 0); [lia|done].
Qed.

(** X3. The segment read for a key press, [audio_buffer[-n:]], is the
    last [n] samples the stream delivered, oldest first, as soon as the
    blocks delivered since the start add up to [n] samples; blocks of
    any sizes up to the capacity may have brought them. *)
Theorem segment_is_latest st blocks n :
  is_recording st = true ->
  Forall (fun block => (length block ≤ length (audio_buffer st))%nat) blocks ->
  (0 < n ≤ length (audio_buffer st))%nat ->
  (n ≤ length (concat blocks))%nat ->
  snapshot_last (feed st blocks) n = last_n n (concat blocks).
Proof.
  intros Hrec Hfit Hn Htotal.
  rewrite feed_window by done. unfold snapshot_last. cbn [audio_buffer set_audio_buffer].
  rewrite getitem_tail_last_n by lia.
  rewrite last_n_last_n by lia. by apply last_n_app_r.
Qed.

Lemma segment_is_latest_witness :
  let blocks := [[one]; [half; minus_quarter]] in
  is_recording small_app = true ∧
  Forall (fun block => (length block ≤ length (audio_buffer small_app))%nat)
         blocks ∧
  (0 < 2 ≤ length (audio_buffer small_app))%nat ∧
  (2 ≤ length (concat blocks))%nat ∧
  snapshot_last (feed small_app blocks) 2 = last_n 2 (concat blocks).
Proof.
  intros blocks.
  assert (H1 : is_recording small_app = true) by reflexivity.
  assert (H2 : Forall (fun block =>
                 (length block ≤ length (audio_buffer small_app))%nat) blocks)
    by (repeat (constructor; [simpl; lia|]); constructor).
  assert (H3 : (0 < 2 ≤ length (audio_buffer small_app))%nat)
    by (simpl; lia).
  assert (H4 : (2 ≤ length (concat blocks))%nat) by (simpl; lia).
  split; [exact H1|]. split; [exact H2|]. split; [exact H3|].
  split; [exact H4|].
  exact (segment_is_latest small_app blocks 2 H1 H2 H3 H4).
Defined.

Lemma step_buffer w ev :
  ¬ is_audio ev -> audio_buffer (step w ev).1 = audio_buffer w.1.
Proof.
  destruct w as [st d]. unfold step.
  destruct ev as [duration stream_error hook_error| |indata|k now io];
    intros Hev.
  - destruct (is_recording st); [done|]. cbn [fst].
    unfold start_recording. destruct duration as [n|]; [|done].
    destruct (n <=? 0); [done|].
    unfold listen_keyboard, record_audio.
    cbn [input_device set_status set_is_recording].
    by destruct hook_error, (input_device st), stream_error.
  - done.
  - by destruct Hev.
  - destruct (listener_running st); [|done].
    by destruct (on_press_fields st d k now io) as (_ & _ & _ & _ & Hb & _).
Qed.

(** X4. Only the stream callback writes the buffer. Key presses, saves
    (failed or not) and clicks on start and stop leave it as it is, so a
    new session starts on the samples of the previous one and a segment
    read after such events is the one read before. *)
Theorem buffer_written_only_by_audio w evs n :
  Forall (fun ev => ¬ is_audio ev) evs ->
  audio_buffer (run w evs).1 = audio_buffer w.1 ∧
  snapshot_last (run w evs).1 n = snapshot_last w.1 n.
Proof.
  intros Hev.
  assert (Hbuf : audio_buffer (run w evs).1 = audio_buffer w.1).
  { revert w. induction Hev as [|ev evs Hnot _ IH]; intros w; [done|].
    change (run w (ev :: evs)) with (run (step w ev) evs).
    by rewrite IH, step_buffer. }
  split; [done|]. unfold snapshot_last. by rewrite Hbuf.
Qed.

Lemma buffer_written_only_by_audio_witness :
  let evs := [EvKey key_a noon IoOk; EvStop] in
  Forall (fun ev => ¬ is_audio ev) evs ∧
  audio_buffer (run (small_app, empty_disk) evs).1 = audio_buffer small_app.
Proof.
  intros evs.
  assert (H1 : Forall (fun ev => ¬ is_audio ev) evs)
    by (repeat (constructor; [intros []|]); constructor).
  split; [exact H1|].
  exact (proj1 (buffer_written_only_by_audio (small_app, empty_disk) evs 2 H1)).
Defined.

Lemma step_idle st d ev :
  is_recording st = false -> is_input ev -> step (st, d) ev = (st, d).
Proof.
  intros Hrec Hin. unfold step.
  destruct ev as [? ? ?| |indata|k now io]; try done.
  - destruct (stream_open st); [|done]. by rewrite callback_idle.
  - destruct (listener_running st); [|done]. unfold on_press. by rewrite Hrec.
Qed.

(** X5. An application that is not recording ignores its input: blocks
    that a still-open stream delivers and key presses that a still-running
    listener sees change neither the application nor the disk. *)
Theorem stopped_application_is_inert st d evs :
  is_recording st = false ->
  Forall is_input evs ->
  run (st, d) evs = (st, d).
Proof.
  intros Hrec Hev. induction Hev as [|ev evs Hin _ IH]; [done|].
  change (run (st, d) (ev :: evs)) with (run (step (st, d) ev) evs).
  by rewrite step_idle.
Qed.

Lemma stopped_application_is_inert_witness :
  let st := stop_recording small_app in
  let evs := [EvAudio [one]; EvKey key_a noon IoOk] in
  is_recording st = false ∧ Forall is_input evs ∧
  run (st, empty_disk) evs = (st, empty_disk).
Proof.
  intros st evs.
  assert (H1 : is_recording st = false) by reflexivity.
  assert (H2 : Forall is_input evs)
    by (repeat (constructor; [exact I|]); constructor).
  split; [exact H1|]. split; [exact H2|].
  exact (stopped_application_is_inert st empty_disk evs H1 H2).
Defined.

Lemma step_constants w ev :
  fs (step w ev).1 = fs w.1 ∧
  segment_samples (step w ev).1 = segment_samples w.1 ∧
  buffer_samples (step w ev).1 = buffer_samples w.1 ∧
  input_device (step w ev).1 = input_device w.1.
Proof.
  destruct w as [st d]. unfold step.
  destruct ev as [duration stream_error hook_error| |indata|k now io].
  - destruct (is_recording st); [done|]. cbn [fst].
    unfold start_recording. destruct duration as [n|]; [|done].
    destruct (n <=? 0); [done|].
    unfold listen_keyboard, record_audio.
    destruct st as [r f bs ss a [dev|] out stat so lr];
      by destruct hook_error, stream_error.
  - done.
  - destruct (stream_open st); [|done]. cbn [fst]. unfold callback.
    destruct (negb _); [done|]. by destruct (Numpy.setitem_tail _ _ _).
  - destruct (listener_running st); [|done].
    by destruct (on_press_fields st d k now io)
      as (_ & Hf & Hb & Hs & _ & Hd & _).
Qed.

Lemma run_constants w evs :
  fs (run w evs).1 = fs w.1 ∧
  segment_samples (run w evs).1 = segment_samples w.1 ∧
  buffer_samples (run w evs).1 = buffer_samples w.1 ∧
  input_device (run w evs).1 = input_device w.1.
Proof.
  revert w. induction evs as [|ev evs IH]; intros w; [done|].
  change (run w (ev :: evs)) with (run (step w ev) evs).
  destruct (IH (step w ev)) as (-> & -> & -> & ->). apply step_constants.
Qed.

(** X2. Nothing that happens in a session changes what [__init__] fixed:
    after any events the buffer holds as many samples as before, also
    after a callback that raised, and the sample rate, the segment and
    buffer sizes, the selected device and the output directory are the
    same. *)
Theorem session_constants w evs :
  length (audio_buffer (run w evs).1) = length (audio_buffer w.1) ∧
  fs (run w evs).1 = fs w.1 ∧
  segment_samples (run w evs).1 = segment_samples w.1 ∧
  buffer_samples (run w evs).1 = buffer_samples w.1 ∧
  input_device (run w evs).1 = input_device w.1 ∧
  output_dir (run w evs).1 = output_dir w.1.
Proof.
  destruct (run_constants w evs) as (Hfs & Hseg & Hcap & Hdev).
  destruct (run_log w evs) as (_ & Hdir & _).
  split; [apply run_buffer_length|]. done.
Qed.

(** X6. Whatever happened since [__init__], a key press that is recorded
    and saved writes a clip of one channel, two bytes per sample and
    44100 frames per second that holds 8820 frames, 0.2 seconds. *)
Theorem clip_format query d evs k now label :
  let w := run (init query, d) evs in
  snd (on_press w.1 w.2 k now IoOk) = [label] ->
  ∃ frames,
    wav_files (on_press w.1 w.2 k now IoOk).1.2 !! wav_path w.1 label now
    = Some (mkWav 1 2 44100 frames) ∧
    Z.of_nat (length frames) = 8820.
Proof.
  intros w Hev.
  destruct (run_constants (init query, d) evs) as (Hfs & Hseg & _ & _).
  pose proof (run_buffer_length (init query, d) evs) as Hlen.
  fold w in Hfs, Hseg, Hlen. cbn [fst] in Hfs, Hseg, Hlen.
  change (fs (init query)) with 44100 in Hfs.
  change (audio_buffer (init query))
    with (replicate (buffer_samples (init query)) F32.zero) in Hlen.
  rewrite length_replicate in Hlen.
  assert (Hs : Z.of_nat (segment_samples w.1) = 8820 ∧
               (segment_samples w.1 ≤ length (audio_buffer w.1))%nat).
  { rewrite Hseg, Hlen.
    pose proof (init_buffer_samples query) as Hcap.
    pose proof (init_segment_samples query) as Hsegn.
    generalize dependent (buffer_samples (init query)).
    generalize dependent (segment_samples (init query)). intros. lia. }
  clear Hseg Hlen. destruct Hs as [Hs1 Hs2].
  unfold on_press in *. destruct (negb _); [done|].
  destruct (recorded_label (key_text k)); [|done].
  cbn [fst snd] in *. injection Hev as <-.
  unfold save_key_audio.
  destruct (normalize (snapshot_last w.1 (segment_samples w.1)))
    as [ints|] eqn:Hnorm.
  - exists ints. cbn [snd wav_files]. rewrite lookup_insert_eq, Hfs.
    split; [done|]. apply normalize_length in Hnorm. rewrite Hnorm.
    unfold snapshot_last. rewrite getitem_tail_last_n by lia.
    unfold last_n. rewrite length_drop. lia.
  - exfalso. apply normalize_None in Hnorm. revert Hnorm.
    apply getitem_tail_nonempty. intros Hnil.
    rewrite Hnil in Hs2. cbn in Hs2. lia.
Qed.

Lemma clip_format_witness :
  let w := run (init (Some [2]), empty_disk) [EvStart (Some 60) None None] in
  snd (on_press w.1 w.2 key_a noon IoOk) = ["a"] ∧
  ∃ frames,
    wav_files (on_press w.1 w.2 key_a noon IoOk).1.2 !! wav_path w.1 "a" noon
    = Some (mkWav 1 2 44100 frames) ∧
    Z.of_nat (length frames) = 8820.
Proof.
  intros w.
  assert (H1 : snd (on_press w.1 w.2 key_a noon IoOk) = ["a"]) by reflexivity.
  split; [exact H1|].
  exact (clip_format (Some [2]) empty_disk [EvStart (Some 60) None None]
           key_a noon "a" H1).
Defined.

(** ** More on the encoding *)

Lemma round_aux_opp s m e l :
  binary_round_aux F32.prec F32.emax (negb s) m e l
  = SFopp (binary_round_aux F32.prec F32.emax s m e l).
Proof.
  unfold binary_round_aux.
  destruct (shr_fexp _ _ m e l) as [mrs' e'].
  destruct (shr_fexp _ _ _ e' loc_Exact) as [mrs'' e''].
  destruct (shr_m mrs''); [done| |done].
  by destruct (e'' <=? F32.emax - F32.prec).
Qed.

Lemma div_opp x mp ep :
  F32.div (SFopp x) (S754_finite false mp ep)
  = SFopp (F32.div x (S754_finite false mp ep)).
Proof.
  destruct x as [s|s| |s m e]; try done; try (by destruct s).
  unfold F32.div, SFdiv. cbn [SFopp].
  destruct (SFdiv_core_binary _ _ _ _ _ _) as [[mz ez] lz].
  rewrite !xorb_false_r. apply round_aux_opp.
Qed.

Lemma mul_opp q mc ec :
  F32.mul (SFopp q) (S754_finite false mc ec)
  = SFopp (F32.mul q (S754_finite false mc ec)).
Proof.
  destruct q as [s|s| |s m e]; try done; try (by destruct s).
  unfold F32.mul, SFmul. cbn [SFopp].
  rewrite !xorb_false_r. apply round_aux_opp.
Qed.

Lemma to_int16_opp y t :
  IEEE.trunc y = Some t -> -32767 <= t <= 32767 ->
  F32.to_int16 (SFopp y) = - F32.to_int16 y.
Proof.
  intros Ht Hr. rewrite (to_int16_small y t Ht Hr).
  apply to_int16_small; [|lia].
  destruct y as [s| | |s m e]; try done; cbn in *.
  - by injection Ht as <-.
  - injection Ht as <-. by destruct s; cbn; rewrite ?Z.opp_involutive.
Qed.

Lemma abs_opp x : F32.abs (SFopp x) = F32.abs x.
Proof. by destruct x. Qed.

Lemma finite_opp x : F32.finite (SFopp x) = F32.finite x.
Proof. by destruct x. Qed.

(** X7. Normalisation is odd: inverting the polarity of every sample of
    a segment of finite samples negates every sample of the clip, so the
    positive and the negative peak are treated alike. *)
Theorem normalize_negation segment :
  Forall (fun x => F32.finite x = true) segment ->
  normalize (map SFopp segment) = option_map (map Z.opp) (normalize segment).
Proof.
  intros Hfin.
  destruct (decide (segment = [])) as [->|Hne]; [done|].
  assert (Habs : map F32.abs (map SFopp segment) = map F32.abs segment).
  { clear. induction segment as [|x l IH]; [done|].
    cbn [map]. by rewrite IH, abs_opp. }
  destruct (normalize_finite segment Hfin Hne)
    as (peak & Hmax & [(Hlt & Hzero & Hnorm)|(Hlt & Hnorm & Hrange & _)]).
  - rewrite Hnorm. unfold normalize. rewrite Habs, Hmax, Hlt.
    cbn [option_map]. f_equal.
    clear -Hzero. induction Hzero as [|x l Hx _ IH]; [done|].
    cbn [map length replicate]. rewrite IH. f_equal.
    destruct x; done.
  - rewrite Hnorm. unfold normalize. rewrite Habs, Hmax, Hlt.
    cbn [option_map]. f_equal.
    destruct (peak_spec segment peak Hfin Hmax) as (Hpeak & _ & _).
    destruct (positive_peak peak Hpeak Hlt) as (mp & ep & -> & _).
    rewrite of_Z_32767 in *.
    clear -Hrange. induction Hrange as [|x l Hx _ IH]; [done|].
    cbn [map]. rewrite IH. f_equal.
    destruct Hx as (t & Ht & Hr & _).
    rewrite div_opp, mul_opp. by apply (to_int16_opp _ t).
Qed.

Lemma normalize_negation_witness :
  let segment := [half; minus_quarter] in
  Forall (fun x => F32.finite x = true) segment ∧
  normalize (map SFopp segment) = option_map (map Z.opp) (normalize segment).
Proof.
  intros segment.
  assert (H1 : Forall (fun x => F32.finite x = true) segment)
    by (repeat constructor).
  split; [exact H1|]. exact (normalize_negation segment H1).
Defined.

(** ** Device selection *)

Lemma first_input_spec devices k i :
  first_input devices k = Some i ↔
  (k ≤ i)%nat ∧
  (∃ c, devices !! (i - k)%nat = Some c ∧ 0 < c) ∧
  (∀ j c, (j < i - k)%nat -> devices !! j = Some c -> c <= 0).
Proof.
  revert k i. induction devices as [|c devices IH]; intros k i.
  - cbn. split; [done|]. by intros (_ & (c & Hc & _) & _).
  - cbn [first_input]. destruct (Z.ltb_spec 0 c) as [Hpos|Hneg].
    + split.
      * intros [= <-]. split; [done|]. rewrite Nat.sub_diag. split.
        -- exists c. done.
        -- intros j c' Hj. lia.
      * intros (Hle & (c' & Hc' & Hpos') & Hbefore).
        destruct (i - k)%nat as [|n] eqn:Hn; [f_equal; lia|].
        specialize (Hbefore 0%nat c ltac:(lia) eq_refl). lia.
    + rewrite IH. split.
      * intros (Hle & (c' & Hc' & Hpos') & Hbefore).
        split; [lia|]. replace (i - k)%nat with (S (i - S k)) by lia. split.
        -- exists c'. done.
        -- intros [|j] c''; cbn.
           ++ intros _ [= <-]. done.
           ++ intros Hj. apply Hbefore. lia.
      * intros (Hle & (c' & Hc' & Hpos') & Hbefore).
        destruct (i - k)%nat as [|n] eqn:Hn.
        { cbn in Hc'. injection Hc' as <-. lia. }
        split; [lia|]. replace (i - S k)%nat with n by lia. split.
        -- exists c'. done.
        -- intros j c'' Hj Hlook. apply (Hbefore (S j) c''); [lia|done].
Qed.

Lemma first_input_none devices k :
  first_input devices k = None -> Forall (fun c => c <= 0) devices.
Proof.
  revert k. induction devices as [|c devices IH]; intros k; [done|].
  cbn [first_input]. destruct (Z.ltb_spec 0 c); [done|].
  intros Hnone. constructor; [done|]. by eapply IH.
Qed.

(** X8. [__init__] selects the first device that has input channels: no
    device before the selected one has any, and none is selected exactly
    when the device query raised or no device has input channels. *)
Theorem input_device_is_first_with_input query :
  match input_device (init query) with
  | Some i =>
      ∃ devices c, query = Some devices ∧ devices !! i = Some c ∧ 0 < c ∧
                   ∀ j c', (j < i)%nat -> devices !! j = Some c' -> c' <= 0
  | None =>
      query = None ∨ ∃ devices, query = Some devices ∧
                                Forall (fun c => c <= 0) devices
  end.
Proof.
  change (input_device (init query)) with (select_input_device query).
  destruct query as [devices|]; [|by left]. cbn [select_input_device].
  destruct (first_input devices 0) as [i|] eqn:Hsel.
  - apply first_input_spec in Hsel as (_ & (c & Hc & Hpos) & Hbefore).
    rewrite Nat.sub_0_r in Hc. exists devices, c.
    split; [done|]. split; [done|]. split; [done|].
    intros j c' Hj. apply Hbefore. lia.
  - right. exists devices. split; [done|]. by eapply first_input_none.
Qed.

(** ** Labels, names and paths *)

(** X9. The label of a recorded press tells what was pressed: two
    presses with the same recorded label are the same named key or type
    the same character. In particular no character key is logged under
    the label of the space bar, enter or backspace. *)
Theorem label_identifies_key k1 k2 :
  recorded_label (key_text k1) = true ->
  key_text k1 = key_text k2 ->
  (∃ name, k1 = Key name ∧ k2 = Key name) ∨
  (∃ c vk1 dead1 vk2 dead2,
     k1 = KeyCode vk1 (Some c) dead1 ∧ k2 = KeyCode vk2 (Some c) dead2).
Proof.
  intros Hrec Heq.
  destruct k1 as [vk1 [c1|] dead1|name1].
  - right. destruct k2 as [vk2 [c2|] dead2|name2]; cbn in Heq.
    + injection Heq as <-. by exists c1, vk1, dead1, vk2, dead2.
    + destruct dead2; [done|]. cbv [String.append] in Heq.
      injection Heq as _ Heq.
      apply (f_equal String.length) in Heq. rewrite length_append in Heq.
      cbn in Heq. lia.
    + cbv [String.append] in Heq. done.
  - by rewrite recorded_KeyCode_no_char in Hrec.
  - left. destruct k2 as [vk2 [c2|] dead2|name2]; cbn [key_text str_key] in Heq.
    + cbv [String.append] in Heq. done.
    + destruct dead2; cbv [String.append] in Heq; done.
    + exists name1. split; [done|]. f_equal.
      cbv [String.append] in Heq. by simplify_eq.
Qed.

Lemma label_identifies_key_witness :
  let k2 := KeyCode 97 (Some "a"%char) false in
  recorded_label (key_text key_a) = true ∧ key_text key_a = key_text k2 ∧
  ((∃ name, key_a = Key name ∧ k2 = Key name) ∨
   (∃ c vk1 dead1 vk2 dead2,
      key_a = KeyCode vk1 (Some c) dead1 ∧ k2 = KeyCode vk2 (Some c) dead2)).
Proof.
  intros k2.
  assert (H1 : recorded_label (key_text key_a) = true) by reflexivity.
  assert (H2 : key_text key_a = key_text k2) by reflexivity.
  split; [exact H1|]. split; [exact H2|].
  exact (label_identifies_key key_a k2 H1 H2).
Defined.

(** X10. The name of a clip file determines the label and the instant of
    the key press that wrote it. *)
Theorem clip_name_decodes label1 now1 label2 now2 :
  datetime_ok now1 -> datetime_ok now2 ->
  wav_filename label1 now1 = wav_filename label2 now2 ->
  label1 = label2 ∧ now1 = now2.
Proof.
  intros Hok1 Hok2 Heq. apply wav_filename_inj in Heq as [-> Hts].
  split; [done|]. by apply strftime_inj.
Qed.

Lemma clip_name_decodes_witness :
  datetime_ok noon ∧ wav_filename "a" noon = wav_filename "a" noon ∧
  ("a" = "a" ∧ noon = noon).
Proof.
  assert (H1 : datetime_ok noon) by (unfold datetime_ok; cbn; lia).
  assert (H2 : wav_filename "a" noon = wav_filename "a" noon) by reflexivity.
  split; [exact H1|]. split; [exact H2|].
  exact (clip_name_decodes "a" noon "a" noon H1 H1 H2).
Defined.

(** X11. Where a clip is written. With an output directory that is not
    empty and does not end in a slash, as [recordings], the clip of every
    recorded label goes to [<output_dir>/<label>_<timestamp>.wav], with
    one exception: for the label [/] the file name starts with a slash,
    [os.path.join] drops the directory, and the path is the bare
    [/_<timestamp>.wav] at the root of the file system. *)
Theorem clip_path_placement st label now :
  recorded_label label = true ->
  output_dir st ≠ EmptyString ->
  Str.endswith_char "/" (output_dir st) = false ->
  (label = "/" -> wav_path st label now = wav_filename label now) ∧
  (label ≠ "/" ->
   wav_path st label now
   = output_dir st +:+ "/" +:+ wav_filename label now).
Proof.
  intros Hrec Hdir Hend. unfold wav_path, os_path_join, wav_filename.
  split.
  - intros ->. done.
  - intros Hlabel.
    assert (Hstart : Str.startswith "/"
              (label +:+ "_" +:+ strftime now +:+ ".wav") = false).
    { unfold recorded_label in Hrec. apply orb_true_iff in Hrec as [H|H].
      - apply isprintable_single in H as (c & -> & _).
        change (String c EmptyString +:+ ?r) with (String c r).
        rewrite startswith_slash_append.
        apply bool_decide_eq_false. intros ->. done.
      - apply bool_decide_eq_true in H.
        rewrite !elem_of_cons, elem_of_nil in H.
        by destruct H as [->|[->|[->|[]]]]. }
    rewrite Hstart, Hend, orb_false_r.
    destruct (String.eqb_spec (output_dir st) EmptyString); done.
Qed.

Lemma clip_path_placement_witness :
  recorded_label "a" = true ∧ output_dir small_app ≠ EmptyString ∧
  Str.endswith_char "/" (output_dir small_app) = false ∧
  wav_path small_app "a" noon
  = output_dir small_app +:+ "/" +:+ wav_filename "a" noon.
Proof.
  assert (H1 : recorded_label "a" = true) by reflexivity.
  assert (H2 : output_dir small_app ≠ EmptyString) by (simpl; discriminate).
  assert (H3 : Str.endswith_char "/" (output_dir small_app) = false)
    by reflexivity.
  assert (H4 : "a" ≠ "/") by discriminate.
  split; [exact H1|]. split; [exact H2|]. split; [exact H3|].
  exact (proj2 (clip_path_placement small_app "a" noon H1 H2 H3) H4).
Defined.

(** ** Timestamps sort by time *)

Lemma compare_append (a a' b b' : string) :
  String.length a = String.length a' ->
  String.compare (a +:+ b) (a' +:+ b')
  = lex (String.compare a a') (String.compare b b').
Proof.
  revert a'. induction a as [|c a IH]; intros [|c' a'] Hlen;
    try discriminate Hlen; [done|].
  injection Hlen as Hlen.
  change (String c a +:+ b) with (String c (a +:+ b)).
  change (String c' a' +:+ b') with (String c' (a' +:+ b')).
  cbn [String.compare]. rewrite (IH a' Hlen).
  by destruct (Ascii.compare c c').
Qed.

Lemma digit_compare (n m : N) :
  Ascii.compare (Str.digit n) (Str.digit m) = (n mod 10 ?= m mod 10)%N.
Proof.
  unfold Ascii.compare, Str.digit.
  pose proof (N.mod_upper_bound n 10 ltac:(done)).
  pose proof (N.mod_upper_bound m 10 ltac:(done)).
  rewrite !N_ascii_embedding by lia.
  destruct (N.compare_spec (n mod 10) (m mod 10));
    [apply N.compare_eq_iff|apply N.compare_lt_iff|apply N.compare_gt_iff]; lia.
Qed.

Lemma zfill_compare width (n m : N) :
  (n < 10 ^ N.of_nat width)%N -> (m < 10 ^ N.of_nat width)%N ->
  String.compare (Str.zfill width n) (Str.zfill width m) = (n ?= m)%N.
Proof.
  revert n m. induction width as [|w IH]; intros n m Hn Hm.
  - change (10 ^ N.of_nat 0)%N with 1%N in *.
    replace n with 0%N by lia. replace m with 0%N by lia. done.
  - rewrite Nat2N.inj_succ, N.pow_succ_r' in Hn, Hm.
    cbn [Str.zfill]. rewrite compare_append by by rewrite !length_zfill.
    rewrite IH by (apply N.Div0.div_lt_upper_bound; lia).
    cbn [String.compare]. rewrite digit_compare.
    pose proof (N.div_mod n 10 ltac:(done)) as Hdn.
    pose proof (N.div_mod m 10 ltac:(done)) as Hdm.
    pose proof (N.mod_upper_bound n 10 ltac:(done)) as Hrn.
    pose proof (N.mod_upper_bound m 10 ltac:(done)) as Hrm.
    clear IH Hn Hm.
    generalize dependent (n mod 10)%N. generalize dependent (m mod 10)%N.
    generalize dependent (n / 10)%N. generalize dependent (m / 10)%N.
    intros q2 q1 r2 Hdm Hrm r1 Hdn Hrn. subst n m.
    destruct (N.compare_spec q1 q2) as [Hq|Hq|Hq]; cbn [lex].
    + destruct (N.compare_spec r1 r2) as [Hr|Hr|Hr];
        symmetry;
        [apply N.compare_eq_iff|apply N.compare_lt_iff|apply N.compare_gt_iff];
        lia.
    + symmetry. apply N.compare_lt_iff. lia.
    + symmetry. apply N.compare_gt_iff. lia.
Qed.

(** X12. Timestamps sort as time does: comparing the [%Y%m%d_%H%M%S_%f]
    texts of two instants as strings gives the order of the instants, so
    the rows of the log and the clips of one label sort chronologically
    by name. *)
Theorem strftime_order d1 d2 :
  datetime_ok d1 -> datetime_ok d2 ->
  String.compare (strftime d1) (strftime d2) = datetime_compare d1 d2.
Proof.
  intros (Hy1 & Hm1 & Hd1 & Hh1 & Hmi1 & Hs1 & Hu1)
         (Hy2 & Hm2 & Hd2 & Hh2 & Hmi2 & Hs2 & Hu2).
  unfold strftime, datetime_compare.
  do 8 (rewrite compare_append by by rewrite ?length_zfill).
  rewrite !zfill_compare
    by (cbn [N.of_nat Pos.of_succ_nat Pos.succ N.pow Pos.pow Pos.iter Pos.mul];
        lia).
  done.
Qed.

Lemma strftime_order_witness :
  let later := mkDatetime 2024 1 2 12 0 1 0 in
  datetime_ok noon ∧ datetime_ok later ∧
  String.compare (strftime noon) (strftime later) = datetime_compare noon later.
Proof.
  intros later.
  assert (H1 : datetime_ok noon) by (unfold datetime_ok; cbn; lia).
  assert (H2 : datetime_ok later) by (unfold datetime_ok; cbn; lia).
  split; [exact H1|]. split; [exact H2|].
  exact (strftime_order noon later H1 H2).
Defined.

(** ** The countdown *)

Lemma step_input_flags st d ev :
  is_input ev ->
  is_recording (step (st, d) ev).1 = is_recording st ∧
  stream_open (step (st, d) ev).1 = stream_open st ∧
  listener_running (step (st, d) ev).1 = listener_running st.
Proof.
  unfold step. destruct ev as [? ? ?| |indata|k now io]; try done; intros _.
  - destruct (stream_open st) eqn:Hopen; [|done]. cbn [fst]. unfold callback.
    destruct (negb _); [done|].
    by destruct (Numpy.setitem_tail _ _ _); cbn; rewrite Hopen.
  - destruct (listener_running st) eqn:Hl; [|done].
    destruct (on_press_fields st d k now io)
      as (? & _ & _ & _ & _ & _ & _ & ? & ?).
    cbn [fst] in *. repeat split; congruence.
Qed.

Lemma halted_step w ev :
  halted w -> unclicked ev -> halted (Timer.timed_step w ev).
Proof.
  destruct w as [[st c] d]. intros (Hrec & Hlabel & Hstatus & Hopen & Hl) Hev.
  cbn [fst snd] in *. destruct ev as [|ev]; cbn [Timer.timed_step].
  - destruct (Timer.scheduled c) as [|pending]; [done|].
    unfold Timer.countdown_timer. cbn [fst snd]. rewrite Hrec. done.
  - cbn [unclicked] in Hev.
    assert (step (st, d) ev = (st, d)) as Hstep by by apply step_idle.
    destruct ev; try done; by rewrite Hstep.
Qed.

Lemma halted_run w evs :
  halted w -> Forall unclicked evs -> halted (Timer.timed_run w evs).
Proof.
  intros Hw Hevs. revert w Hw.
  induction Hevs as [|ev evs Hev _ IH]; intros w Hw; [done|].
  cbn [Timer.timed_run fold_left]. apply IH. by apply halted_step.
Qed.

Lemma counting_run r w evs :
  counting r w -> Forall unclicked evs ->
  if bool_decide (Z.of_nat (ticks evs) <= r)
  then counting (r - Z.of_nat (ticks evs)) (Timer.timed_run w evs)
  else halted (Timer.timed_run w evs).
Proof.
  intros Hw Hevs. revert r w Hw.
  induction Hevs as [|ev evs Hev Hevs IH]; intros r w Hw.
  - cbn [ticks Timer.timed_run fold_left].
    destruct Hw as (? & ? & ? & ? & ? & ?).
    rewrite bool_decide_eq_true_2 by lia. rewrite Z.sub_0_r. done.
  - cbn [Timer.timed_run fold_left].
    change (fold_left Timer.timed_step evs ?w0) with (Timer.timed_run w0 evs).
    destruct w as [[st c] d].
    destruct Hw as (Hrec & Hrun & Hrem & Hr & Hsched & Hlabel).
    cbn [fst snd] in *. destruct ev as [|ev]; cbn [ticks Timer.timed_step].
    + destruct (Timer.scheduled c) as [|pending] eqn:Hp; [lia|].
      unfold Timer.countdown_timer. cbn [fst snd Timer.set_scheduled
        Timer.timer_running Timer.remaining_time]. rewrite Hrec, Hrun, Hrem.
      cbn [negb orb]. destruct (Z.ltb_spec 0 r) as [Hpos|Hzero].
      * specialize (IH (r - 1)
          (st, Timer.after (Timer.update_timer_label
                 (Timer.set_remaining_time (Timer.set_scheduled c pending)
                                           (r - 1))), d)).
        rewrite Nat2Z.inj_succ.
        replace (r - Z.succ (Z.of_nat (ticks evs)))
          with (r - 1 - Z.of_nat (ticks evs)) by lia.
        rewrite (bool_decide_ext (Z.succ (Z.of_nat (ticks evs)) <= r)
                   (Z.of_nat (ticks evs) <= r - 1)) by lia.
        apply IH. unfold counting, Timer.update_timer_label.
        cbn [fst snd Timer.set_remaining_time Timer.remaining_time].
        split; [done|].
        destruct (Z.ltb_spec 0 (r - 1)) as [Hp1|Hp1];
          cbn [Timer.after Timer.set_timer_label Timer.set_scheduled
               Timer.timer_running Timer.remaining_time Timer.scheduled
               Timer.timer_label Timer.set_remaining_time Timer.recording_duration].
        -- rewrite bool_decide_eq_true_2 by done.
           repeat split; (done || lia).
        -- rewrite bool_decide_eq_false_2 by lia.
           repeat split; (done || lia).
      * rewrite bool_decide_eq_false_2 by lia.
        apply halted_run; [|done]. done.
    + cbn [unclicked] in Hev.
      destruct (step_input_flags st d ev Hev) as (Hrec' & _ & _).
      assert (Timer.timed_step (st, c, d) (Timer.App ev)
              = ((step (st, d) ev).1, c, (step (st, d) ev).2)) as Hstep.
      { destruct ev; try done; cbn [Timer.timed_step];
          by destruct (step _ _). }
      cbn [Timer.timed_step] in Hstep. rewrite Hstep.
      apply IH. unfold counting. cbn [fst snd]. rewrite Hrec'. done.
Qed.

(** X13. The countdown. After a start with a duration of [n] seconds,
    and whatever blocks and key presses arrive in between, the session is
    recording until [n] ticks have run and the next tick stops it: it
    lasts [n + 1] ticks. After [k <= n] ticks [n - k] seconds remain and
    the label shows them, except that it is empty during the last tick
    interval; once stopped the label is empty, the status is idle and
    stream and listener are closed. Ticks left over from an earlier
    session count like those of this one. *)
Theorem countdown_ends_session st c d n stream_error hook_error evs :
  0 < n -> Forall unclicked evs ->
  let w := Timer.timed_run
             (Timer.start_recording (st, c) (Some n) stream_error hook_error, d)
             evs in
  let k := Z.of_nat (ticks evs) in
  is_recording w.1.1 = bool_decide (k <= n) ∧
  (k <= n ->
   Timer.remaining_time w.1.2 = n - k ∧
   Timer.timer_label w.1.2
   = if bool_decide (k < n) then "Time left: " +:+ pretty (n - k) +:+ " s"
     else EmptyString) ∧
  (n < k ->
   Timer.timer_label w.1.2 = EmptyString ∧
   status_label w.1.1 = "Status: Idle" ∧
   stream_open w.1.1 = false ∧ listener_running w.1.1 = false).
Proof.
  intros Hn Hevs w k.
  assert (Hstart : counting n
    (Timer.start_recording (st, c) (Some n) stream_error hook_error, d)).
  { unfold Timer.start_recording, counting.
    destruct (Z.leb_spec n 0) as [?|_]; [lia|]. cbn [fst snd].
    unfold Timer.update_timer_label. cbn [Timer.remaining_time].
    destruct (Z.ltb_spec 0 n) as [_|?]; [|lia].
    rewrite bool_decide_eq_true_2 by done.
    cbn [Timer.after Timer.set_timer_label Timer.set_scheduled
         Timer.set_timer_running
         Timer.timer_running Timer.remaining_time Timer.scheduled
         Timer.timer_label].
    split; [|repeat split; (done || lia)].
    unfold start_recording. destruct (Z.leb_spec n 0) as [?|_]; [lia|].
    unfold listen_keyboard, record_audio.
    cbn [input_device set_status set_is_recording].
    by destruct hook_error, (input_device st), stream_error. }
  pose proof (counting_run n _ evs Hstart Hevs) as Hrun.
  fold w k in Hrun. destruct (bool_decide_reflect (k <= n)) as [Hle|Hgt].
  - destruct Hrun as (Hrec & _ & Hrem & _ & _ & Hlabel).
    split; [done|]. split; [|lia]. intros _. split; [done|].
    rewrite Hlabel. apply (f_equal (fun b : bool => if b then _ else _)).
    apply bool_decide_ext. lia.
  - destruct Hrun as (Hrec & Hlabel & Hstatus & Hopen & Hl).
    split; [done|]. split; [lia|]. done.
Qed.

Lemma countdown_ends_session_witness :
  let evs := [Timer.Tick; Timer.App (EvAudio [one]); Timer.Tick; Timer.Tick] in
  let w := Timer.timed_run
             (Timer.start_recording (init (Some [2]), Timer.init) (Some 2)
                                    None None, empty_disk) evs in
  0 < 2 ∧ Forall unclicked evs ∧
  is_recording w.1.1 = bool_decide (Z.of_nat (ticks evs) <= 2).
Proof.
  intros evs w.
  assert (H1 : 0 < 2) by lia.
  assert (H2 : Forall unclicked evs)
    by (repeat (constructor; [exact I|]); constructor).
  split; [exact H1|]. split; [exact H2|].
  exact (proj1 (countdown_ends_session (init (Some [2])) Timer.init empty_disk
                  2 None None evs H1 H2)).
Defined.

(** ** Every recorded press is logged *)

(** X14. While the application is recording with its listener running
    and every save goes through, the log gains exactly one row per
    recorded key press, in the order of the presses, whatever blocks
    arrive in between; presses of other keys add nothing. *)
Theorem log_records_every_press st d evs :
  is_recording st = true -> listener_running st = true ->
  audio_buffer st ≠ [] ->
  Forall is_input evs -> Forall saved evs ->
  metadata (run (st, d) evs).2
  = metadata d ++ (row_of <$> filter (fun stamp => recorded_label stamp.1 = true)
                                     (key_stamps evs)).
Proof.
  intros Hrec Hl Hbuf Hin Hsaved. revert st d Hrec Hl Hbuf Hsaved.
  induction Hin as [|ev evs Hev _ IH]; intros st d Hrec Hl Hbuf Hsaved.
  - cbn. by rewrite app_nil_r.
  - apply Forall_cons in Hsaved as [Hok Hsaved].
    change (run (st, d) (ev :: evs)) with (run (step (st, d) ev) evs).
    destruct (step_input_flags st d ev Hev) as (Hrec' & _ & Hl').
    pose proof (step_buffer_length (st, d) ev) as Hlen.
    destruct (step (st, d) ev) as [st' d'] eqn:Hstep. cbn [fst snd] in *.
    rewrite IH; try congruence.
    2: { intros Hnil. rewrite Hnil in Hlen. by destruct (audio_buffer st). }
    destruct ev as [? ? ?| |indata|k now io]; try done.
    + cbn [key_stamps]. unfold step in Hstep.
      by destruct (stream_open st); simplify_eq.
    + cbn [saved] in Hok. subst io. cbn [key_stamps]. unfold step in Hstep.
      rewrite Hl in Hstep. unfold on_press in Hstep. rewrite Hrec in Hstep.
      cbn [negb fst] in Hstep. rewrite filter_cons. cbn [fst].
      destruct (recorded_label (key_text k)) eqn:Hlabel.
      * destruct (save_ok st d (key_text k) now Hbuf) as (ints & _ & Hsave).
        rewrite Hsave in Hstep. cbn [fst] in Hstep. simplify_eq.
        cbn [metadata].
        rewrite decide_True by done. by rewrite fmap_cons, <- app_assoc.
      * cbn [fst] in Hstep. simplify_eq. by rewrite decide_False by done.
Qed.

Lemma log_records_every_press_witness :
  let evs := [EvKey key_a noon IoOk; EvAudio [one];
              EvKey key_shift noon IoOk] in
  is_recording small_app = true ∧ listener_running small_app = true ∧
  audio_buffer small_app ≠ [] ∧ Forall is_input evs ∧ Forall saved evs ∧
  metadata (run (small_app, empty_disk) evs).2
  = metadata empty_disk
    ++ (row_of <$> filter (fun stamp => recorded_label stamp.1 = true)
                          (key_stamps evs)).
Proof.
  intros evs.
  assert (H1 : is_recording small_app = true) by reflexivity.
  assert (H2 : listener_running small_app = true) by reflexivity.
  assert (H3 : audio_buffer small_app ≠ []) by (vm_compute; discriminate).
  assert (H4 : Forall is_input evs)
    by (repeat (constructor; [exact I|]); constructor).
  assert (H5 : Forall saved evs)
    by (repeat (constructor; [simpl; auto|]); constructor).
  split; [exact H1|]. split; [exact H2|]. split; [exact H3|].
  split; [exact H4|]. split; [exact H5|].
  exact (log_records_every_press small_app empty_disk evs H1 H2 H3 H4 H5).
Defined.

(** ** Samples that are not finite *)

Lemma fold_maximum_nan l : fold_left F32.maximum l S754_nan = S754_nan.
Proof. induction l as [|x l IH]; [done|]. by destruct x. Qed.

Lemma fold_maximum_infinity l :
  fold_left F32.maximum (map F32.abs l) (S754_infinity false) = S754_nan ∨
  fold_left F32.maximum (map F32.abs l) (S754_infinity false)
  = S754_infinity false ∧ Forall (fun x => x ≠ S754_nan) l.
Proof.
  induction l as [|x l IH]; [by right|].
  cbn [map fold_left]. destruct x as [s|s| |s m e]; cbn.
  - destruct IH as [?|[? ?]]; [by left|right]. by split; [|constructor].
  - destruct IH as [?|[? ?]]; [by left|right]. by split; [|constructor].
  - left. apply fold_maximum_nan.
  - destruct IH as [?|[? ?]]; [by left|right]. by split; [|constructor].
Qed.

Lemma maximum_infinity acc :
  acc ≠ S754_nan ->
  F32.maximum acc (S754_infinity false) = S754_infinity false.
Proof. by destruct acc as [[]|[]| |[] ? ?]. Qed.

Lemma fold_maximum_nonfinite l acc :
  Exists nonfinite l ->
  fold_left F32.maximum (map F32.abs l) acc = S754_nan ∨
  fold_left F32.maximum (map F32.abs l) acc = S754_infinity false ∧
  Forall (fun x => x ≠ S754_nan) l.
Proof.
  revert acc. induction l as [|x l IH]; intros acc Hex.
  - by apply Exists_nil in Hex.
  - cbn [map fold_left].
    assert (acc = S754_nan ∨ acc ≠ S754_nan) as [->|Hacc]
      by (destruct acc; by auto).
    { left. replace (F32.maximum S754_nan (F32.abs x)) with S754_nan
        by by destruct x. apply fold_maximum_nan. }
    destruct x as [s|s| |s m e].
    + apply Exists_cons in Hex as [[]|Hex].
      destruct (IH (F32.maximum acc (F32.abs (S754_zero s))) Hex)
        as [?|[? ?]]; [by left|right]. by split; [|constructor].
    + cbn [F32.abs SFabs]. rewrite maximum_infinity by done.
      destruct (fold_maximum_infinity l) as [?|[? ?]]; [by left|right].
      by split; [|constructor].
    + left. replace (F32.maximum acc (F32.abs S754_nan)) with S754_nan
        by by destruct acc. apply fold_maximum_nan.
    + apply Exists_cons in Hex as [[]|Hex].
      destruct (IH (F32.maximum acc (F32.abs (S754_finite s m e))) Hex)
        as [?|[? ?]]; [by left|right]. by split; [|constructor].
Qed.

Lemma max_abs_nonfinite segment :
  Exists nonfinite segment ->
  F32.max (map F32.abs segment) = Some S754_nan ∨
  F32.max (map F32.abs segment) = Some (S754_infinity false) ∧
  Forall (fun x => x ≠ S754_nan) segment.
Proof.
  destruct segment as [|x l]; intros Hex.
  - by apply Exists_nil in Hex.
  - cbn [map F32.max]. destruct x as [s|s| |s m e].
    + apply Exists_cons in Hex as [[]|Hex].
      destruct (fold_maximum_nonfinite l (F32.abs (S754_zero s)) Hex)
        as [->|[-> ?]]; [by left|right]. by split; [|constructor].
    + destruct (fold_maximum_infinity l) as [?|[? ?]].
      * left. by f_equal.
      * right. split; [by f_equal|by constructor].
    + left. f_equal. apply fold_maximum_nan.
    + apply Exists_cons in Hex as [[]|Hex].
      destruct (fold_maximum_nonfinite l (F32.abs (S754_finite s m e)) Hex)
        as [->|[-> ?]]; [by left|right]. by split; [|constructor].
Qed.

Lemma to_int16_below_one x :
  F32.finite x = true -> magnitude x < 2 ^ 149 -> F32.to_int16 x = 0.
Proof.
  intros [[s ->]|(s & m & e & -> & Hb)]%finite_cases Hmag; [done|].
  apply bounded_spec in Hb as (He & _ & _). cbn [magnitude] in Hmag.
  assert (Hneg : e < 0).
  { destruct (Z.ltb_spec e 0) as [|Hge]; [done|].
    assert (2 ^ 149 <= 2 ^ (e + 149)) by (apply Z.pow_le_mono_r; lia).
    nia. }
  assert (Hm : Zpos m < 2 ^ (- e)).
  { replace (2 ^ 149) with (2 ^ (- e) * 2 ^ (e + 149)) in Hmag
      by (rewrite <- Z.pow_add_r by lia; f_equal; lia).
    assert (0 < 2 ^ (e + 149)) by (apply Z.pow_pos_nonneg; lia). nia. }
  apply to_int16_small; [|lia]. cbn [IEEE.trunc].
  destruct (Z.leb_spec 0 e); [lia|]. rewrite Z.div_small by lia.
  by destruct s.
Qed.

Lemma to_int16_nonfinite x : nonfinite x -> F32.to_int16 x = 0.
Proof. by destruct x. Qed.

(** X15. One sample that is NaN or infinite silences the clip. With a
    NaN the peak is NaN, the test [> 0] fails and the samples are cast
    without scaling; with an infinity every finite sample is divided to
    zero. Either way, when the other samples are finite and of magnitude
    below one, every frame of the clip is zero. *)
Theorem nonfinite_sample_silences_clip segment :
  Exists nonfinite segment ->
  Forall (fun x => nonfinite x ∨
                   F32.finite x = true ∧ magnitude x < 2 ^ 149) segment ->
  normalize segment = Some (replicate (length segment) 0).
Proof.
  intros Hex Hall. unfold normalize.
  destruct (max_abs_nonfinite segment Hex) as [->|[-> Hnan]].
  - change (F32.ltb F32.zero S754_nan) with false. cbn match. f_equal.
    clear Hex. induction Hall as [|x l Hx _ IH]; [done|].
    cbn [map length replicate]. rewrite IH. f_equal.
    destruct Hx as [Hx|[Hfin Hmag]].
    + by apply to_int16_nonfinite.
    + by apply to_int16_below_one.
  - change (F32.ltb F32.zero (S754_infinity false)) with true. cbn match.
    f_equal. rewrite of_Z_32767.
    clear Hex Hall. induction Hnan as [|x l Hx _ IH]; [done|].
    cbn [map length replicate]. rewrite IH. f_equal.
    by destruct x as [[]|[]| |[] ? ?].
Qed.

Lemma nonfinite_sample_silences_clip_witness :
  let segment := [half; S754_nan; minus_quarter] in
  Exists nonfinite segment ∧
  Forall (fun x => nonfinite x ∨
                   F32.finite x = true ∧ magnitude x < 2 ^ 149) segment ∧
  normalize segment = Some (replicate (length segment) 0).
Proof.
  intros segment.
  assert (H1 : Exists nonfinite segment)
    by (apply Exists_cons_tl, Exists_cons_hd; exact I).
  assert (H2 : Forall (fun x => nonfinite x ∨
                 F32.finite x = true ∧ magnitude x < 2 ^ 149) segment).
  { constructor; [right; split; reflexivity|].
    constructor; [left; exact I|].
    constructor; [right; split; reflexivity|]. constructor. }
  split; [exact H1|]. split; [exact H2|].
  exact (nonfinite_sample_silences_clip segment H1 H2).
Defined.

(** ** From the microphone to the clip *)

Lemma run_app w evs1 evs2 : run w (evs1 ++ evs2) = run (run w evs1) evs2.
Proof. apply fold_left_app. Qed.

Lemma run_audio st d blocks :
  stream_open st = true ->
  run (st, d) (EvAudio <$> blocks) = (feed st blocks, d).
Proof.
  revert st. induction blocks as [|b blocks IH]; intros st Hopen; [done|].
  cbn [fmap list_fmap].
  change (run (st, d) (EvAudio b :: (EvAudio <$> blocks)))
    with (run (step (st, d) (EvAudio b)) (EvAudio <$> blocks)).
  destruct (step_input_flags st d (EvAudio b) I) as (_ & Hopen' & _).
  cbn [step] in *. rewrite Hopen in *. cbn [fst] in Hopen'.
  by rewrite IH.
Qed.

Lemma start_with_device st i duration :
  input_device st = Some i -> 0 < duration ->
  start_recording st (Some duration) None None
  = set_listener_running
      (set_stream_open
         (set_status (set_is_recording st true) "Status: Recording...") true)
      true.
Proof.
  intros Hdev Hpos. unfold start_recording.
  destruct (Z.leb_spec duration 0) as [?|_]; [lia|].
  unfold listen_keyboard, record_audio.
  cbn [input_device set_status set_is_recording]. by rewrite Hdev.
Qed.

(** X16. From the microphone to the clip. On a machine with an input
    device, after a start and blocks of at most the buffer's size that
    add up to at least one segment, a recorded key press writes the clip
    that holds the normalised last [segment_samples] samples delivered,
    under the press's file name, and appends its row to the log. *)
Theorem clip_holds_latest_audio query i duration d blocks k now :
  select_input_device query = Some i -> 0 < duration ->
  Forall (fun block => (length block ≤ buffer_samples (init query))%nat)
         blocks ->
  (segment_samples (init query) ≤ length (concat blocks))%nat ->
  recorded_label (key_text k) = true ->
  let st0 := start_recording (init query) (Some duration) None None in
  ∃ ints,
    normalize (last_n (segment_samples (init query)) (concat blocks))
    = Some ints ∧
    (run (st0, d) ((EvAudio <$> blocks) ++ [EvKey k now IoOk])).2
    = mkDisk (<[wav_path st0 (key_text k) now := mkWav 1 2 44100 ints]>
                (wav_files d))
             (metadata d ++ [row_of (key_text k, now)]).
Proof.
  intros Hsel Hpos Hfit Htotal Hlabel st0.
  assert (Hst0 : st0 = set_listener_running
      (set_stream_open
         (set_status (set_is_recording (init query) true)
                     "Status: Recording...") true) true)
    by by apply (start_with_device _ i).
  assert (Hbuf0 : audio_buffer st0
                  = replicate (buffer_samples (init query)) F32.zero)
    by by rewrite Hst0.
  assert (Hseg0 : segment_samples st0 = segment_samples (init query))
    by by rewrite Hst0.
  assert (Hcap : (0 < segment_samples (init query)
                  ≤ buffer_samples (init query))%nat).
  { pose proof (init_buffer_samples query) as Hb.
    pose proof (init_segment_samples query) as Hs.
    clear -Hb Hs.
    generalize dependent (buffer_samples (init query)).
    generalize dependent (segment_samples (init query)). intros. lia. }
  rewrite run_app, run_audio by by rewrite Hst0.
  rewrite feed_window
    by (by rewrite Hst0 || by rewrite Hbuf0, length_replicate).
  rewrite Hbuf0, length_replicate.
  set (window := last_n (buffer_samples (init query))
                   (replicate (buffer_samples (init query)) F32.zero
                    ++ concat blocks)).
  set (st1 := set_audio_buffer st0 window).
  assert (Hlen : length window = buffer_samples (init query)).
  { apply length_last_n. rewrite length_app, length_replicate. lia. }
  assert (Hne : audio_buffer st1 ≠ []).
  { subst st1. cbn [audio_buffer set_audio_buffer]. intros Hnil.
    rewrite Hnil in Hlen. cbn [length] in Hlen. lia. }
  destruct (save_ok st1 d (key_text k) now Hne) as (ints & Hnorm & Hsave).
  exists ints. split.
  - rewrite <- Hnorm. f_equal.
    unfold snapshot_last. cbn [st1 audio_buffer segment_samples set_audio_buffer].
    rewrite Hseg0, getitem_tail_last_n by lia.
    unfold window. rewrite last_n_last_n by lia.
    symmetry. by apply last_n_app_r.
  - cbn [run fold_left step].
    replace (listener_running st1) with true
      by (subst st1; by rewrite Hst0).
    unfold on_press.
    replace (is_recording st1) with true by (subst st1; by rewrite Hst0).
    cbn [negb]. rewrite Hlabel. cbn [fst snd]. rewrite Hsave. cbn [snd].
    subst st1. by rewrite Hst0.
Qed.

Lemma clip_holds_latest_audio_witness :
  let query := Some [2] in
  let blocks := [replicate (segment_samples (init query)) half] in
  let st0 := start_recording (init query) (Some 60) None None in
  select_input_device query = Some 0%nat ∧ 0 < 60 ∧
  Forall (fun block => (length block ≤ buffer_samples (init query))%nat)
         blocks ∧
  (segment_samples (init query) ≤ length (concat blocks))%nat ∧
  recorded_label (key_text key_a) = true ∧
  ∃ ints,
    normalize (last_n (segment_samples (init query)) (concat blocks))
    = Some ints ∧
    (run (st0, empty_disk) ((EvAudio <$> blocks) ++ [EvKey key_a noon IoOk])).2
    = mkDisk (<[wav_path st0 (key_text key_a) noon := mkWav 1 2 44100 ints]>
                (wav_files empty_disk))
             (metadata empty_disk ++ [row_of (key_text key_a, noon)]).
Proof.
  intros query blocks st0.
  assert (H1 : select_input_device query = Some 0%nat) by reflexivity.
  assert (H2 : 0 < 60) by lia.
  assert (H3 : Forall (fun block =>
                 (length block ≤ buffer_samples (init query))%nat) blocks).
  { constructor; [|constructor]. rewrite length_replicate.
    pose proof (init_buffer_samples query) as Hb.
    pose proof (init_segment_samples query) as Hs.
    generalize dependent (buffer_samples (init query)).
    generalize dependent (segment_samples (init query)). intros. lia. }
  assert (H4 : (segment_samples (init query) ≤ length (concat blocks))%nat).
  { unfold blocks. cbn [concat]. rewrite app_nil_r, length_replicate. lia. }
  assert (H5 : recorded_label (key_text key_a) = true) by reflexivity.
  split; [exact H1|]. split; [exact H2|]. split; [exact H3|].
  split; [exact H4|]. split; [exact H5|].
  exact (clip_holds_latest_audio query 0 60 empty_disk blocks key_a noon
           H1 H2 H3 H4 H5).
Defined.
